(** * News summarizer: pipeline, batch orchestrator, cost tracker, rate limiter

    A shallow embedding of [summarizer.py] (classes [NewsSummarizer] and
    [AsyncNewsSummarizer]) and of the parts of the provider gateway that
    its behaviour depends on.

    Modelling choices:
    - A Python [str] is a sequence of code points ([list N]); the slice
      [s[:n]] is [take n s].
    - The article dictionaries come from the news client with the six
      string fields title, description, content, url, source and
      published_at, and the code only subscripts them with these literal
      keys: they are records, and so is the dictionary literal that
      [summarize_article] returns.
    - [self.llm_providers] belongs to the provider module.  Its two calls
      are the members of the class [LLMProviders]: a call takes a prompt,
      runs against the state of the gateway (cost log, rate limiter, the
      remote services) and returns a text or raises.  The exceptions are
      instances of [Exception], the ones [except Exception] catches.
    - [print] only writes to stdout and is left out.
    - In [process_articles_async] the worker threads interleave between
      provider calls, a provider call being one step on the gateway state;
      the scheduler's choices are an explicit schedule. *)

From Stdlib Require Import Ascii String DecimalString QArith Qcanon.
From stdpp Require Import base option list numbers strings gmap.

Set Default Proof Using "Type".

(** ** Python strings *)

Abbreviation str := (list N) (only parsing).

(** An ASCII literal of the source, as a sequence of code points. *)
Definition lit (s : string) : str :=
  (λ a, N_of_ascii a) <$> list_ascii_of_string s.

Arguments lit s : simpl never.

Definition nl : str := [10%N].
Definition dquote : str := [34%N].

(** ** Data model *)

(** The article dictionary produced by the news client. *)
Record Article := mkArticle {
  a_title : str;
  a_description : str;
  a_content : str;
  a_url : str;
  a_source : str;
  a_published_at : str
}.

(** The dictionary literal returned by [summarize_article]. *)
Record SummaryResult := mkSummaryResult {
  title : str;
  source : str;
  url : str;
  summary : str;
  sentiment : str;
  published_at : str
}.

(** What a result owes to its article: the four metadata fields. *)
Definition built_from (article : Article) (r : SummaryResult) : Prop :=
  title r = a_title article ∧ source r = a_source article ∧
  url r = a_url article ∧ published_at r = a_published_at article.

(** ** State-and-exception monad

    A computation runs against the state of the provider gateway and
    either returns a value or raises; the state changes made before an
    exception is raised persist. *)

Definition M (W E A : Type) : Type := W → (E + A) * W.

Definition ret {W E A} (x : A) : M W E A := λ w, (inr x, w).

Definition bind {W E A B} (m : M W E A) (k : A → M W E B) : M W E B :=
  λ w, match m w with
       | (inr x, w') => k x w'
       | (inl e, w') => (inl e, w')
       end.

(** [try: m except Exception as e: h e] *)
Definition try_except {W E A} (m : M W E A) (h : E → M W E A) : M W E A :=
  λ w, match m w with
       | (inr x, w') => (inr x, w')
       | (inl e, w') => h e w'
       end.

Declare Scope py_scope.
Delimit Scope py_scope with py.
Notation "'let!' x ':=' m 'in' k" := (bind m (λ x, k))
  (at level 10, x name, m at level 100, k at level 200) : py_scope.
Open Scope py_scope.

(** ** NewsSummarizer *)

(** [self.llm_providers]: the two calls of the provider gateway that the
    summarizer uses.  [W] is the state a call runs against, [E] the
    exceptions it can raise. *)
Class LLMProviders (W E : Type) := {
  ask_openai : str → M W E str;
  ask_cohere : str → M W E str
}.

Section Summarizer.
Context {W E : Type} {llm_providers : LLMProviders W E}.

Definition article_text (article : Article) : str :=
  lit "Title: " ++ a_title article ++ nl ++
  lit "Description: " ++ a_description article ++ nl ++
  lit "Content: " ++ take 500 (a_content article).

Definition summary_prompt (article : Article) : str :=
  lit "Summarize this news article in 2-3 sentences:" ++ nl ++ nl ++
  article_text article.

Definition sentiment_prompt (summary : str) : str :=
  lit "Analyze the sentiment of this text: " ++ dquote ++ summary ++ dquote ++
  nl ++ nl ++
  lit "Provide:" ++ nl ++
  lit "- Overall sentiment (positive/negative/neutral)" ++ nl ++
  lit "- Confidence (0-100%)" ++ nl ++
  lit "- Key emotional tone" ++ nl ++ nl ++
  lit "Be concise (2-3 sentences).".

Definition sentiment_placeholder : str := lit "Unable to analyze sentiment".

(** Step 1: summarize with OpenAI, falling back to Cohere. *)
Definition summarize_step (article : Article) : M W E str :=
  try_except (ask_openai (summary_prompt article))
             (λ _, ask_cohere (summary_prompt article)).

(** Step 2: analyze sentiment with Cohere, degrading to the placeholder. *)
Definition sentiment_step (summary : str) : M W E str :=
  try_except (ask_cohere (sentiment_prompt summary))
             (λ _, ret sentiment_placeholder).

Definition make_result (article : Article) (summary sentiment : str)
  : SummaryResult :=
  {| title := a_title article;
     source := a_source article;
     url := a_url article;
     summary := summary;
     sentiment := sentiment;
     published_at := a_published_at article |}.

Definition summarize_article (article : Article) : M W E SummaryResult :=
  let! summary := summarize_step article in
  let! sentiment := sentiment_step summary in
  ret (make_result article summary sentiment).

(** The [for] loop of [process_articles]; [results] is the list being
    appended to. *)
Fixpoint process_loop (articles : list Article) (results : list SummaryResult)
  : M W E (list SummaryResult) :=
  match articles with
  | [] => ret results
  | article :: rest =>
      let! results' :=
        try_except
          (let! result := summarize_article article in
           ret (results ++ [result]))
          (λ _, ret results) in
      process_loop rest results'
  end.

Definition process_articles (articles : list Article)
  : M W E (list SummaryResult) :=
  process_loop articles [].

(** The outcome of each article, in input order, when the pipeline is run
    on one article after the other: [inl e] is the exception that
    [process_articles] catches, [inr result] the value it appends. *)
Fixpoint sequential_outcomes (articles : list Article) (w : W)
  : list (E + SummaryResult) * W :=
  match articles with
  | [] => ([], w)
  | article :: rest =>
      let (outcome, w1) := summarize_article article w in
      let (outcomes, w2) := sequential_outcomes rest w1 in
      (outcome :: outcomes, w2)
  end.

(** *** The article as an object

    [summarize_article] receives a reference to the caller's dictionary.
    Here the dictionary is part of the state: [getitem] is a subscript
    read [article[key]], and a gateway call is handed a string only, so
    it runs on the gateway component. *)

Definition getitem (key : Article → str) : M (Article * W) E str :=
  λ σ, (inr (key σ.1), σ).

Definition gateway_call (call : M W E str) : M (Article * W) E str :=
  λ σ, let (r, w') := call σ.2 in (r, (σ.1, w')).

Definition summarize_article_object : M (Article * W) E SummaryResult :=
  let! title0 := getitem a_title in
  let! description0 := getitem a_description in
  let! content0 := getitem a_content in
  let article_text :=
    lit "Title: " ++ title0 ++ nl ++
    lit "Description: " ++ description0 ++ nl ++
    lit "Content: " ++ take 500 content0 in
  let summary_prompt :=
    lit "Summarize this news article in 2-3 sentences:" ++ nl ++ nl ++
    article_text in
  let! summary :=
    try_except (gateway_call (ask_openai summary_prompt))
               (λ _, gateway_call (ask_cohere summary_prompt)) in
  let! sentiment :=
    try_except (gateway_call (ask_cohere (sentiment_prompt summary)))
               (λ _, ret sentiment_placeholder) in
  let! title1 := getitem a_title in
  let! source1 := getitem a_source in
  let! url1 := getitem a_url in
  let! published_at1 := getitem a_published_at in
  ret {| title := title1; source := source1; url := url1;
         summary := summary; sentiment := sentiment;
         published_at := published_at1 |}.

End Summarizer.

Arguments summarize_article {W E _} article w : simpl never.

(** ** AsyncNewsSummarizer

    [process_articles_async] creates one task per article, in input order
    ([process_with_semaphore]).  A task first acquires the semaphore, then
    runs [summarize_article] in a worker thread ([summarize_article_async],
    through [asyncio.to_thread]) and releases the semaphore when the thread
    is done; [asyncio.gather] with [return_exceptions=True] stores the
    outcome of the i-th task at position i of [results].

    The worker threads of the in-flight tasks interleave between provider
    calls; a provider call is one step on the state of the gateway.  Which
    task moves next is decided by the scheduler: a run of the function is
    indexed by a schedule, the list of task indices in the order in which
    they move. *)

(** The provider call a worker thread is about to make. *)
Inductive position :=
| AtPrimary                      (* ask_openai(summary_prompt) *)
| AtFallback                     (* ask_cohere(summary_prompt) *)
| AtSentiment (summary : str).   (* ask_cohere(sentiment_prompt) *)

Inductive task {E : Type} :=
| Waiting (article : Article)                    (* blocked in semaphore.acquire() *)
| Running (article : Article) (pos : position)   (* holds a slot, thread in flight *)
| Finished (outcome : E + SummaryResult).        (* slot released, outcome stored *)
Arguments task : clear implicits.

Definition is_waiting {E} (t : task E) : bool :=
  match t with Waiting _ => true | _ => false end.
Definition is_running {E} (t : task E) : bool :=
  match t with Running _ _ => true | _ => false end.
Definition is_finished {E} (t : task E) : bool :=
  match t with Finished _ => true | _ => false end.

(** Number of slots of the semaphore currently taken. *)
Definition in_flight {E} (tasks : list (task E)) : nat :=
  length (filter (λ t, is_running t = true) tasks).

(** [asyncio.Semaphore] wakes its waiters in FIFO order, and the tasks
    reach [acquire] in creation order: task [i] gets a slot only when a
    slot is free and no earlier task is still waiting. *)
Definition can_acquire {E} (max_concurrent i : nat) (tasks : list (task E)) : bool :=
  forallb (λ t, negb (is_waiting t)) (take i tasks)
  && bool_decide (in_flight tasks < max_concurrent).

(** [[r for r in results if not isinstance(r, Exception)]] *)
Definition successes {E} (results : list (E + SummaryResult)) : list SummaryResult :=
  omap (λ r, match r with inr x => Some x | inl _ => None end) results.

(** [await asyncio.gather] over the tasks with [return_exceptions=True]:
    available once every task has finished, in task order. *)
Definition gathered {E} (tasks : list (task E)) : option (list (E + SummaryResult)) :=
  mapM (λ t, match t with Finished o => Some o | _ => None end) tasks.

Section Async.
Context {W E : Type} {llm_providers : LLMProviders W E}.

(** One provider call of the thread running [summarize_article article]. *)
Definition thread_step (article : Article) (pos : position) (w : W) : task E * W :=
  match pos with
  | AtPrimary =>
      match ask_openai (summary_prompt article) w with
      | (inr summary, w') => (Running article (AtSentiment summary), w')
      | (inl _, w') => (Running article AtFallback, w')
      end
  | AtFallback =>
      match ask_cohere (summary_prompt article) w with
      | (inr summary, w') => (Running article (AtSentiment summary), w')
      | (inl e, w') => (Finished (inl e), w')
      end
  | AtSentiment summary =>
      match ask_cohere (sentiment_prompt summary) w with
      | (inr sentiment, w') =>
          (Finished (inr (make_result article summary sentiment)), w')
      | (inl _, w') =>
          (Finished (inr (make_result article summary sentiment_placeholder)), w')
      end
  end.

(** Task [i] moves: it is admitted by the semaphore, or its thread makes
    its next provider call.  [None] when task [i] cannot move. *)
Definition step (max_concurrent i : nat) (c : list (task E) * W)
  : option (list (task E) * W) :=
  let (tasks, w) := c in
  match tasks !! i with
  | Some (Waiting article) =>
      if can_acquire max_concurrent i tasks
      then Some (<[i := Running article AtPrimary]> tasks, w)
      else None
  | Some (Running article pos) =>
      let (t', w') := thread_step article pos w in
      Some (<[i := t']> tasks, w')
  | Some (Finished _) | None => None
  end.

Fixpoint run_schedule (max_concurrent : nat) (schedule : list nat)
    (c : list (task E) * W) : option (list (task E) * W) :=
  match schedule with
  | [] => Some c
  | i :: schedule' =>
      match step max_concurrent i c with
      | Some c' => run_schedule max_concurrent schedule' c'
      | None => None
      end
  end.

(** The run of [process_articles_async] under [schedule]: [None] when the
    schedule asks a task to move that cannot, or stops before [gather]
    has every outcome.  [max_concurrent] is a [nat]: [asyncio.Semaphore]
    rejects negative values. *)
Definition process_articles_async (articles : list Article) (max_concurrent : nat)
    (schedule : list nat) (w : W) : option (list SummaryResult * W) :=
  match run_schedule max_concurrent schedule (Waiting <$> articles, w) with
  | Some (tasks, w') =>
      match gathered tasks with
      | Some results => Some (successes results, w')
      | None => None
      end
  | None => None
  end.

(** What is left of [summarize_article article] from a position of its
    thread. *)
Definition rest_of_article (article : Article) (pos : position)
  : M W E SummaryResult :=
  match pos with
  | AtPrimary => summarize_article article
  | AtFallback =>
      let! summary := ask_cohere (summary_prompt article) in
      let! sentiment := sentiment_step summary in
      ret (make_result article summary sentiment)
  | AtSentiment summary =>
      let! sentiment := sentiment_step summary in
      ret (make_result article summary sentiment)
  end.

Definition rest_of_task (t : task E) (w : W) : (E + SummaryResult) * W :=
  match t with
  | Waiting article => summarize_article article w
  | Running article pos => rest_of_article article pos w
  | Finished outcome => (outcome, w)
  end.

(** The tasks run to their end one after the other, in task order. *)
Fixpoint run_in_order (tasks : list (task E)) (w : W)
  : list (E + SummaryResult) * W :=
  match tasks with
  | [] => ([], w)
  | t :: rest =>
      let (outcome, w1) := rest_of_task t w in
      let (outcomes, w2) := run_in_order rest w1 in
      (outcome :: outcomes, w2)
  end.

(** With a single slot the tasks are served one at a time: the finished
    ones come first, then at most one in flight, then the waiting ones. *)
Inductive serial : list (task E) → Prop :=
| serial_finished outcome tasks :
    serial tasks → serial (Finished outcome :: tasks)
| serial_running article pos rest :
    serial (Running article pos :: (Waiting <$> rest))
| serial_waiting rest :
    serial (Waiting <$> rest).

(** Task [t] stands for [article]: it still has the article to work on,
    or holds a result built from it. *)
Definition task_of (article : Article) (t : task E) : Prop :=
  match t with
  | Waiting article' | Running article' _ => article' = article
  | Finished (inr r) => built_from article r
  | Finished (inl _) => True
  end.

(** [text] is an answer of a provider to the summary request for
    [article]. *)
Definition summary_reply (article : Article) (text : str) : Prop :=
  ∃ w, (ask_openai (summary_prompt article) w).1 = inr text ∨
       (ask_cohere (summary_prompt article) w).1 = inr text.

(** [mood] is Cohere's answer to the sentiment request for [text], or the
    placeholder that stands in for a failed request. *)
Definition sentiment_reply (text mood : str) : Prop :=
  ∃ w, (ask_cohere (sentiment_prompt text) w).1 = inr mood ∨
       ((∃ e, (ask_cohere (sentiment_prompt text) w).1 = inl e) ∧
        mood = lit "Unable to analyze sentiment").

(** OpenAI failed the summary request for [article]. *)
Definition primary_failed (article : Article) : Prop :=
  ∃ w e, (ask_openai (summary_prompt article) w).1 = inl e.

(** [outcome] is an outcome of the pipeline for [article]: a result with
    the article's metadata, a provider's summary of the article and the
    sentiment of that summary, or the exception of Cohere's summary
    request after OpenAI failed. *)
Definition outcome_of (article : Article) (outcome : E + SummaryResult) : Prop :=
  match outcome with
  | inr r =>
      built_from article r ∧
      summary_reply article (summary r) ∧
      sentiment_reply (summary r) (sentiment r)
  | inl e =>
      primary_failed article ∧
      ∃ w, (ask_cohere (summary_prompt article) w).1 = inl e
  end.

(** What a task of a run has established about its article so far. *)
Definition produced (article : Article) (t : task E) : Prop :=
  match t with
  | Waiting article' | Running article' AtPrimary => article' = article
  | Running article' AtFallback => article' = article ∧ primary_failed article
  | Running article' (AtSentiment text) =>
      article' = article ∧ summary_reply article text
  | Finished outcome => outcome_of article outcome
  end.

End Async.

(** Upper bound on the moves a task still has to make. *)
Definition remaining_steps {E} (t : task E) : nat :=
  match t with
  | Waiting _ => 4
  | Running _ AtPrimary => 3
  | Running _ AtFallback => 2
  | Running _ (AtSentiment _) => 1
  | Finished _ => 0
  end.

Definition remaining {E} (tasks : list (task E)) : nat :=
  sum_list (remaining_steps <$> tasks).

(** ** Configuration ([config.py]) *)

Definition OPENAI_RPM : Qc := Qc_of_Z 500.
Definition COHERE_RPM : Qc := Qc_of_Z 100.

(** ** Cost tracker *)

(** Modelled from the spec: the audit record of one billed call (provider
    module [my_llm_providers], missing): provider, model, token counts and
    the computed cost. *)
Record PricedRequest := mkPricedRequest {
  pr_provider : string;
  pr_model : string;
  pr_input_tokens : N;
  pr_output_tokens : N;
  pr_cost : Qc
}.

(** Modelled from the spec: the state of [CostTracker] (provider module
    [my_llm_providers], missing): the append-only request log and the
    running total.  The tests read them as [tracker.requests] and
    [tracker.total_cost]. *)
Record CostTracker := mkCostTracker {
  requests : list PricedRequest;
  total_cost : Qc
}.

(** Modelled from the spec: the two errors of the cost tracker (provider
    module [my_llm_providers], missing). *)
Inductive tracker_error :=
| ConfigurationError (provider model : string)
| BudgetExceeded (total ceiling : Qc).

(** [CostTracker()] *)
Definition new_tracker : CostTracker := {| requests := []; total_cost := 0%Qc |}.

Definition Qc_of_N (n : N) : Qc := Qc_of_Z (Z.of_N n).

(** Modelled from the spec: the pricing formula of [track_request]
    (provider module [my_llm_providers], missing).  The spec gives
    [cost = input_tokens/1000 * in_rate + output_tokens/1000 * out_rate];
    amounts are exact rationals. *)
Definition request_cost (rates : Qc * Qc) (input_tokens output_tokens : N) : Qc :=
  (Qc_of_N input_tokens / Qc_of_Z 1000 * rates.1
   + Qc_of_N output_tokens / Qc_of_Z 1000 * rates.2)%Qc.

(** Modelled from the spec: [CostTracker.track_request] (provider module
    [my_llm_providers], missing).  It looks the provider/model pair up in the price table,
    computes the cost, appends a [PricedRequest] to the log, increments the
    running total and returns the cost; an unknown pair fails with a
    Configuration error. *)
Definition track_request (prices : gmap (string * string) (Qc * Qc))
    (provider model : string) (input_tokens output_tokens : N)
  : M CostTracker tracker_error Qc :=
  λ t,
    match prices !! (provider, model) with
    | None => (inl (ConfigurationError provider model), t)
    | Some rates =>
        let cost := request_cost rates input_tokens output_tokens in
        (inr cost,
         {| requests := requests t ++
                        [mkPricedRequest provider model input_tokens output_tokens cost];
            total_cost := (total_cost t + cost)%Qc |})
    end.

(** Modelled from the spec: [CostTracker.check_budget] (provider module
    [my_llm_providers], missing).  It fails with a Budget-Exceeded error when the running total
    strictly exceeds the ceiling and is a no-op otherwise. *)
Definition check_budget (ceiling : Qc) : M CostTracker tracker_error unit :=
  λ t,
    if decide (ceiling < total_cost t)%Qc
    then (inl (BudgetExceeded (total_cost t) ceiling), t)
    else (inr (), t).

(** Sum of the costs in a request log. *)
Definition logged_cost (log : list PricedRequest) : Qc :=
  foldr (λ r acc, (pr_cost r + acc)%Qc) 0%Qc log.

(** A tracker whose running total is the sum of its log. *)
Definition balanced (t : CostTracker) : Prop :=
  total_cost t = logged_cost (requests t).

(** A [track_request] call, as issued by a client of the tracker. *)
Record tracked_call := mkCall {
  c_provider : string;
  c_model : string;
  c_input_tokens : N;
  c_output_tokens : N
}.

(** The tracker after a sequence of [track_request] calls; a call that
    fails leaves the tracker as it was. *)
Definition track_all (prices : gmap (string * string) (Qc * Qc))
    (calls : list tracked_call) (t : CostTracker) : CostTracker :=
  foldl (λ t c, (track_request prices (c_provider c) (c_model c)
                   (c_input_tokens c) (c_output_tokens c) t).2) t calls.

(** ** Rate limiter *)

(** Modelled from the spec: the per-provider state of the rate limiter
    (provider module [my_llm_providers], missing): the last-call timestamp
    and the minimum interval between calls. *)
Record RateLimiterState := mkRateLimiter {
  last_call : option Qc;     (* timestamp of the last call, if any *)
  min_interval : Qc          (* minimum spacing, in seconds *)
}.

(** Modelled from the spec: the per-provider minimum spacing of the
    gateway (provider module [my_llm_providers], missing),
    [60 / requests_per_minute] seconds. *)
Definition spacing (rpm : Qc) : Qc := (Qc_of_Z 60 / rpm)%Qc.

Definition new_limiter (rpm : Qc) : RateLimiterState :=
  {| last_call := None; min_interval := spacing rpm |}.

(** Modelled from the spec: the time a call has to be suspended for
    (gateway of the provider module [my_llm_providers], missing).  The
    gateway computes the elapsed time since the provider's last call and,
    if it is less than the minimum spacing, suspends the caller for the
    remainder. *)
Definition required_wait (now : Qc) (s : RateLimiterState) : Qc :=
  match last_call s with
  | None => 0
  | Some last =>
      let elapsed := (now - last)%Qc in
      if decide (elapsed < min_interval s)%Qc
      then (min_interval s - elapsed)%Qc
      else 0
  end.

(** Modelled from the spec: the critical section of the gateway (provider
    module [my_llm_providers], missing) around "read last call time,
    compute wait, update last call time".  [now] is the clock reading inside the critical section;
    the result is the time at which the call starts, which becomes the
    provider's last-call time.  A provider without a rate entry is a
    configuration error ([None]). *)
Definition enforce_rate_limit (provider : string) (now : Qc)
    (limits : gmap string RateLimiterState)
  : option (Qc * gmap string RateLimiterState) :=
  match limits !! provider with
  | None => None
  | Some s =>
      let start := (now + required_wait now s)%Qc in
      Some (start, <[provider := {| last_call := Some start;
                                    min_interval := min_interval s |}]> limits)
  end.

(** Modelled from the spec: the start times of the calls to the gateway
    (provider module [my_llm_providers], missing), in the order in which
    the calls pass through the critical section.  Each call is a provider
    and the clock reading inside the critical section; concurrent callers
    are serialised by the mutex, in any order. *)
Fixpoint call_starts (calls : list (string * Qc))
    (limits : gmap string RateLimiterState) : list (string * Qc) :=
  match calls with
  | [] => []
  | (provider, now) :: rest =>
      match enforce_rate_limit provider now limits with
      | Some (start, limits') => (provider, start) :: call_starts rest limits'
      | None => call_starts rest limits
      end
  end.

(** The limiter table built from [config.py]. *)
Definition configured_limits : gmap string RateLimiterState :=
  {[ "openai"%string := new_limiter OPENAI_RPM;
     "cohere"%string := new_limiter COHERE_RPM ]}.

(** ** A scripted gateway

    A concrete gateway for examples: each provider answers its calls from
    a script ([Some text] is a reply, [None] a provider error, an
    exhausted script keeps failing) and every call is recorded. *)

Record scripted := mkScripted {
  openai_script : list (option str);
  cohere_script : list (option str);
  call_log : list (string * str)
}.

Definition scripted_reply (r : option (option str)) : str + str :=
  match r with
  | Some (Some text) => inr text
  | _ => inl (lit "provider error")
  end.

Definition scripted_openai (prompt : str) : M scripted str str :=
  λ w, (scripted_reply (head (openai_script w)),
        {| openai_script := tail (openai_script w);
           cohere_script := cohere_script w;
           call_log := call_log w ++ [("openai"%string, prompt)] |}).

Definition scripted_cohere (prompt : str) : M scripted str str :=
  λ w, (scripted_reply (head (cohere_script w)),
        {| openai_script := openai_script w;
           cohere_script := tail (cohere_script w);
           call_log := call_log w ++ [("cohere"%string, prompt)] |}).

#[global] Instance scripted_providers : LLMProviders scripted str :=
  {| ask_openai := scripted_openai; ask_cohere := scripted_cohere |}.

Definition sample_article (n : N) : Article :=
  {| a_title := lit "Test Article " ++ [(48 + n)%N];
     a_description := lit "Test description";
     a_content := lit "Test content";
     a_url := lit "https://example.com";
     a_source := lit "Test Source";
     a_published_at := lit "2026-01-19" |}.

(** A gateway with the given scripts and an empty call log. *)
Definition scripted_world (openai cohere : list (option str)) : scripted :=
  {| openai_script := openai; cohere_script := cohere; call_log := [] |}.

(** OpenAI is down; Cohere answers the summary and the sentiment request. *)
Definition fallback_world : scripted :=
  scripted_world [None] [Some (lit "Short summary"); Some (lit "Positive")].

(** Both providers are down. *)
Definition failing_world : scripted := scripted_world [] [].

(** OpenAI answers the summary request; Cohere is down. *)
Definition no_sentiment_world : scripted :=
  scripted_world [Some (lit "Short summary")] [].

(** Three articles are processed; both summary requests of the second fail. *)
Definition second_fails_world : scripted :=
  scripted_world
    [Some (lit "Summary 1"); None; Some (lit "Summary 3")]
    [Some (lit "Positive"); None; Some (lit "Neutral")].

(** A price table for examples: rates per 1K input and output tokens. *)
Definition sample_prices : gmap (string * string) (Qc * Qc) :=
  {[ ("openai"%string, "gpt-4o-mini"%string) :=
       ((Qc_of_Z 15 / Qc_of_Z 100000)%Qc, (Qc_of_Z 60 / Qc_of_Z 100000)%Qc) ]}.

(** ** The calls a run makes

    A gateway that keeps, next to the state of the gateway it wraps, the
    list of the calls made so far: provider name and prompt. *)

Definition traced_call {W E} (provider : string) (call : str → M W E str)
    (prompt : str) : M (W * list (string * str)) E str :=
  λ σ, let (r, w') := call prompt σ.1 in (r, (w', σ.2 ++ [(provider, prompt)])).

Definition traced {W E} (providers : LLMProviders W E)
  : LLMProviders (W * list (string * str)) E :=
  {| ask_openai := traced_call "openai" (ask_openai (LLMProviders:=providers));
     ask_cohere := traced_call "cohere" (ask_cohere (LLMProviders:=providers)) |}.

Section ProviderCalls.
Context {W E : Type} {llm_providers : LLMProviders W E}.

(** The provider calls of [summarize_article article] run from [w]. *)
Definition provider_calls (article : Article) (w : W) : list (string * str) :=
  match ask_openai (summary_prompt article) w with
  | (inr summary, _) =>
      [("openai"%string, summary_prompt article);
       ("cohere"%string, sentiment_prompt summary)]
  | (inl _, w1) =>
      match ask_cohere (summary_prompt article) w1 with
      | (inr summary, _) =>
          [("openai"%string, summary_prompt article);
           ("cohere"%string, summary_prompt article);
           ("cohere"%string, sentiment_prompt summary)]
      | (inl _, _) =>
          [("openai"%string, summary_prompt article);
           ("cohere"%string, summary_prompt article)]
      end
  end.

(** The provider calls of [process_articles articles] run from [w]. *)
Fixpoint batch_calls (articles : list Article) (w : W) : list (string * str) :=
  match articles with
  | [] => []
  | article :: rest =>
      provider_calls article w ++ batch_calls rest (summarize_article article w).2
  end.

End ProviderCalls.

(** ** Gateways whose replies depend on the prompt only *)

Section PromptOnly.
Context {E : Type}.
Variable openai_reply cohere_reply : str → E + str.

(** The outcome of the pipeline for [article] when OpenAI answers a prompt
    [p] with [openai_reply p] and Cohere with [cohere_reply p]. *)
Definition reply_outcome (article : Article) : E + SummaryResult :=
  let finish summary :=
    inr (make_result article summary
           match cohere_reply (sentiment_prompt summary) with
           | inr sentiment => sentiment
           | inl _ => sentiment_placeholder
           end) in
  match openai_reply (summary_prompt article) with
  | inr summary => finish summary
  | inl _ =>
      match cohere_reply (summary_prompt article) with
      | inr summary => finish summary
      | inl e => inl e
      end
  end.

(** A task holds, or will end with, the outcome that the replies fix for
    its article. *)
Definition settled (article : Article) (t : task E) : Prop :=
  match t with
  | Waiting article' | Running article' AtPrimary => article' = article
  | Running article' AtFallback =>
      article' = article ∧ ∃ e, openai_reply (summary_prompt article) = inl e
  | Running article' (AtSentiment summary) =>
      article' = article ∧
      reply_outcome article =
        inr (make_result article summary
               match cohere_reply (sentiment_prompt summary) with
               | inr sentiment => sentiment
               | inl _ => sentiment_placeholder
               end)
  | Finished outcome => outcome = reply_outcome article
  end.

End PromptOnly.

(** A gateway that counts its calls and answers by the prompt alone:
    OpenAI refuses prompts of more than 120 code points and otherwise
    echoes the last 14 of them, Cohere always answers "Neutral". *)
Definition echo_openai_reply (prompt : str) : str + str :=
  if decide (length prompt ≤ 120)
  then inr (drop (length prompt - 14) prompt)
  else inl (lit "prompt too long").

Definition echo_cohere_reply (prompt : str) : str + str := inr (lit "Neutral").

Definition echo_providers : LLMProviders nat str :=
  {| ask_openai := λ prompt n, (echo_openai_reply prompt, S n);
     ask_cohere := λ prompt n, (echo_cohere_reply prompt, S n) |}.

(** ** Configuration check ([config.py])

    A [Config] value is the class once its body has been evaluated, with
    the attributes that [validate] reads: each key is the value found in
    the environment ([None] when the variable is unset).  The attributes
    that the class body parses with [int()] and [float()] play no part in
    [validate] and are not modelled. *)

Record Config := mkConfig {
  OPENAI_API_KEY : option str;   (* os.environ.get("OPENAI_API_KEY") *)
  COHERE_API_KEY : option str;   (* os.getenv("COHERE_API_KEY") *)
  NEWS_API_KEY : option str;     (* os.getenv("NEWS_API_KEY") *)
  ENVIRONMENT : str              (* os.getenv("ENVIRONMENT", "development") *)
}.

(** Truth value of an optional string: [None] and [""] are false. *)
Definition truthy (value : option str) : bool :=
  match value with
  | Some (_ :: _) => true
  | _ => false
  end.

Definition openai_label : str := lit "OPENAI_API_KEY (Windows env)".
Definition cohere_label : str := lit "COHERE_API_KEY (.env)".
Definition news_label : str := lit "NEWS_API_KEY (.env)".

Definition required (cls : Config) : list (str * option str) :=
  [(openai_label, OPENAI_API_KEY cls);
   (cohere_label, COHERE_API_KEY cls);
   (news_label, NEWS_API_KEY cls)].

(** [[name for name, value in required if not value]] *)
Definition missing (cls : Config) : list str :=
  (λ entry, entry.1) <$> filter (λ entry, truthy entry.2 = false) (required cls).

(** [sep.join(parts)] *)
Definition join (sep : str) (parts : list str) : str :=
  match parts with
  | [] => []
  | first :: rest => first ++ concat ((λ part, sep ++ part) <$> rest)
  end.

(** [Config.validate]: the message of the [ValueError], or [()]. *)
Definition validate (cls : Config) : str + unit :=
  match missing cls with
  | [] => inr ()
  | names => inl (lit "Missing required configuration: " ++ join (lit ", ") names)
  end.

(** ** The report ([generate_report])

    The report is the list of the strings handed to [print], in order.
    The cost summary comes from [cost_tracker.get_summary()] of the
    provider module; its dictionary is the record [CostSummary], with the
    costs in a type [C] that is formatted by [format_fixed] (the float
    formats [.4f] and [.6f]). *)

Definition str_of_N (n : N) : str := lit (NilEmpty.string_of_uint (N.to_uint n)).

(** Commas between groups of three digits, on the reversed digits. *)
Fixpoint group_thousands (reversed : list N) : list N :=
  match reversed with
  | a :: b :: c :: (_ :: _) as rest => a :: b :: c :: 44%N :: group_thousands rest
  | _ => reversed
  end.

(** The format [{n:,}] of a non-negative integer. *)
Definition with_commas (n : N) : str :=
  reverse (group_thousands (reverse (str_of_N n))).

Record CostSummary (C : Type) := mkCostSummary {
  s_total_requests : N;
  s_total_cost : C;
  s_total_input_tokens : N;
  s_total_output_tokens : N;
  s_average_cost : C
}.
Arguments s_total_requests {C} _.
Arguments s_total_cost {C} _.
Arguments s_total_input_tokens {C} _.
Arguments s_total_output_tokens {C} _.
Arguments s_average_cost {C} _.

Section Report.
Context {W C : Type}.
Variable get_summary : W → CostSummary C.
Variable format_fixed : nat → C → str.

Definition rule (c : N) (n : nat) : str := replicate n c.

(** The six [print] calls of the loop body for the [i]-th result. *)
Definition report_entry (i : N) (result : SummaryResult) : list str :=
  [ nl ++ str_of_N i ++ lit ". " ++ title result;
    lit "   Source: " ++ source result ++ lit " | Published: " ++ published_at result;
    lit "   URL: " ++ url result;
    nl ++ lit "   SUMMARY:" ++ nl ++ lit "   " ++ summary result;
    nl ++ lit "   SENTIMENT:" ++ nl ++ lit "   " ++ sentiment result;
    nl ++ lit "   " ++ rule 45 76 ].

(** [for i, result in enumerate(results, i)] *)
Fixpoint report_entries (i : N) (results : list SummaryResult) : list str :=
  match results with
  | [] => []
  | result :: rest => report_entry i result ++ report_entries (N.succ i) rest
  end.

Definition generate_report (results : list SummaryResult) (w : W) : list str :=
  [ nl ++ rule 61 80; lit "NEWS SUMMARY REPORT"; rule 61 80 ] ++
  report_entries 1 results ++
  let summary := get_summary w in
  [ nl ++ rule 61 80;
    lit "COST SUMMARY";
    rule 61 80;
    lit "Total requests: " ++ str_of_N (s_total_requests summary);
    lit "Total cost: $" ++ format_fixed 4 (s_total_cost summary);
    lit "Total tokens: " ++
      with_commas (s_total_input_tokens summary + s_total_output_tokens summary);
    lit "  Input: " ++ with_commas (s_total_input_tokens summary);
    lit "  Output: " ++ with_commas (s_total_output_tokens summary);
    lit "Average cost per request: $" ++ format_fixed 6 (s_average_cost summary);
    rule 61 80 ].

End Report.

(** An article whose content is 500 code points followed by [ending]. *)
Definition long_article (ending : str) : Article :=
  {| a_title := lit "Long read";
     a_description := lit "Test description";
     a_content := replicate 500 120%N ++ ending;
     a_url := lit "https://example.com";
     a_source := lit "Test Source";
     a_published_at := lit "2026-01-19" |}.

(** A cost summary for examples, costs in units of 1/10000 dollar. *)
Definition sample_summary : CostSummary N :=
  {| s_total_requests := 2; s_total_cost := 3%N; s_total_input_tokens := 250;
     s_total_output_tokens := 1500; s_average_cost := 1%N |}.

(** * Properties *)

(** ** The summarization pipeline *)

Section SummarizerFacts.
Context {W E : Type} {llm_providers : LLMProviders W E}.

(** The sentiment stage never raises. *)
Lemma sentiment_step_total summary w :
  sentiment_step summary w =
    match ask_cohere (sentiment_prompt summary) w with
    | (inr sentiment, w') => (inr sentiment, w')
    | (inl _, w') => (inr sentiment_placeholder, w')
    end.
Proof. reflexivity. Qed.

(** [summarize_article] in terms of its two stages. *)
Lemma summarize_article_stages article w :
  summarize_article article w =
    match summarize_step article w with
    | (inr summary, w1) =>
        match ask_cohere (sentiment_prompt summary) w1 with
        | (inr sentiment, w2) => (inr (make_result article summary sentiment), w2)
        | (inl _, w2) => (inr (make_result article summary sentiment_placeholder), w2)
        end
    | (inl e, w1) => (inl e, w1)
    end.
Proof.
  unfold summarize_article, bind.
  destruct (summarize_step article w) as [[e|summary] w1]; [done|].
  rewrite sentiment_step_total.
  by destruct (ask_cohere (sentiment_prompt summary) w1) as [[e|sentiment] w2].
Qed.

Lemma summarize_step_fallback article w e w1 :
  ask_openai (summary_prompt article) w = (inl e, w1) →
  summarize_step article w = ask_cohere (summary_prompt article) w1.
Proof. intros H. unfold summarize_step, try_except. by rewrite H. Qed.

(** The loop appends to [results] exactly the successful outcomes. *)
Lemma process_loop_outcomes articles results w :
  process_loop articles results w =
    (inr (results ++ successes (sequential_outcomes articles w).1),
     (sequential_outcomes articles w).2).
Proof.
  revert results w. induction articles as [|article rest IH]; intros results w.
  - cbn. unfold ret. by rewrite app_nil_r.
  - cbn [process_loop sequential_outcomes].
    unfold bind at 1. unfold try_except, bind, ret.
    destruct (summarize_article article w) as [[e|result] w1].
    + rewrite IH. by destruct (sequential_outcomes rest w1).
    + rewrite IH. destruct (sequential_outcomes rest w1) as [os w2].
      cbn. by rewrite <- app_assoc.
Qed.

Lemma process_articles_outcomes articles w :
  process_articles articles w =
    (inr (successes (sequential_outcomes articles w).1),
     (sequential_outcomes articles w).2).
Proof. apply (process_loop_outcomes articles []). Qed.

Lemma summarize_article_built_from article w r w' :
  summarize_article article w = (inr r, w') → built_from article r.
Proof.
  rewrite summarize_article_stages.
  destruct (summarize_step article w) as [[e|text] w1]; [done|].
  destruct (ask_cohere (sentiment_prompt text) w1) as [[e|s] w2];
    intros [= <- _]; by repeat split.
Qed.

Lemma sequential_outcomes_built_from articles w :
  Forall2 (λ a o, match o with inr r => built_from a r | inl _ => True end)
          articles (sequential_outcomes articles w).1.
Proof.
  revert w. induction articles as [|article rest IH]; intros w.
  - constructor.
  - cbn [sequential_outcomes].
    destruct (summarize_article article w) as [o w1] eqn:Ho.
    specialize (IH w1). destruct (sequential_outcomes rest w1) as [os w2].
    constructor; [|done].
    destruct o as [e|r]; [done|]. by eapply summarize_article_built_from.
Qed.

(** The successes of a list of outcomes come from a subsequence of the
    articles, in the same order. *)
Lemma successes_sublist (articles : list Article) (os : list (E + SummaryResult)) :
  Forall2 (λ a o, match o with inr r => built_from a r | inl _ => True end)
          articles os →
  ∃ kept, sublist kept articles ∧ Forall2 built_from kept (successes os).
Proof.
  induction 1 as [|a o articles os Hao _ (kept & Hsub & Hall)].
  - exists []. by split; constructor.
  - destruct o as [e|r]; cbn.
    + exists kept. split; [by constructor|done].
    + exists (a :: kept). split; [by constructor|by constructor].
Qed.

(** C1. When the primary provider fails Stage A and the secondary answers
    the same summarization prompt, [summarize_article] returns the
    secondary's text as the summary and still runs Stage B on it; when
    both Stage-A attempts fail, the secondary's exception is raised to the
    caller, with no Stage-B call made. *)
Theorem summarize_article_stage_a_fallback article w e w1 :
  ask_openai (summary_prompt article) w = (inl e, w1) →
  (∀ text w2,
     ask_cohere (summary_prompt article) w1 = (inr text, w2) →
     ∃ r w3,
       summarize_article article w = (inr r, w3) ∧
       summary r = text ∧
       sentiment_step text w2 = (inr (sentiment r), w3) ∧
       w3 = (ask_cohere (sentiment_prompt text) w2).2) ∧
  (∀ e2 w2,
     ask_cohere (summary_prompt article) w1 = (inl e2, w2) →
     summarize_article article w = (inl e2, w2)).
Proof.
  intros Hprimary. split.
  - intros text w2 Hsecondary.
    rewrite summarize_article_stages, (summarize_step_fallback _ _ _ _ Hprimary),
      Hsecondary, sentiment_step_total.
    destruct (ask_cohere (sentiment_prompt text) w2) as [[e'|s] w3];
      eexists _, _; repeat split.
  - intros e2 w2 Hsecondary.
    by rewrite summarize_article_stages, (summarize_step_fallback _ _ _ _ Hprimary),
      Hsecondary.
Qed.

(** C2. When Stage A succeeded and the Stage-B sentiment request fails,
    [summarize_article] returns a complete result: its sentiment field is
    the fixed string "Unable to analyze sentiment", its summary is the
    Stage-A text and its other fields are the article's; the batch loop
    keeps that result. *)
Theorem summarize_article_sentiment_degraded article w text w1 e w2 :
  summarize_step article w = (inr text, w1) →
  ask_cohere (sentiment_prompt text) w1 = (inl e, w2) →
  ∃ r,
    summarize_article article w = (inr r, w2) ∧
    sentiment r = lit "Unable to analyze sentiment" ∧
    summary r = text ∧
    title r = a_title article ∧ source r = a_source article ∧
    url r = a_url article ∧ published_at r = a_published_at article ∧
    ∀ rest,
      process_articles (article :: rest) w =
        (inr (r :: successes (sequential_outcomes rest w2).1),
         (sequential_outcomes rest w2).2).
Proof.
  intros Ha Hb.
  exists (make_result article text sentiment_placeholder).
  assert (summarize_article article w
          = (inr (make_result article text sentiment_placeholder), w2)) as Hr.
  { by rewrite summarize_article_stages, Ha, Hb. }
  split; [done|]. repeat (split; [reflexivity|]). intros rest.
  rewrite process_articles_outcomes. cbn [sequential_outcomes].
  rewrite Hr. by destruct (sequential_outcomes rest w2).
Qed.

(** C3. Sequential [process_articles] never raises: it returns the results
    of exactly the articles whose pipeline succeeded, in input order
    (they are built from a subsequence of the articles).  With three
    articles of which only the second fails it returns the two other
    results in order, and when every article fails it returns the empty
    list. *)
Theorem process_articles_drops_failures articles w :
  let outcomes := (sequential_outcomes articles w).1 in
  (∃ results,
     process_articles articles w = (inr results, (sequential_outcomes articles w).2) ∧
     results = successes outcomes ∧
     length outcomes = length articles ∧
     ∃ kept, sublist kept articles ∧ Forall2 built_from kept results) ∧
  (∀ a1 a2 a3 r1 e2 r3 w1 w2 w3,
     summarize_article a1 w = (inr r1, w1) →
     summarize_article a2 w1 = (inl e2, w2) →
     summarize_article a3 w2 = (inr r3, w3) →
     process_articles [a1; a2; a3] w = (inr [r1; r3], w3)) ∧
  (Forall (λ o, ∃ e, o = inl e) outcomes →
   process_articles articles w = (inr [], (sequential_outcomes articles w).2)).
Proof.
  intros outcomes. split; [|split].
  - exists (successes outcomes). split; [apply process_articles_outcomes|].
    split; [done|].
    pose proof (sequential_outcomes_built_from articles w) as Hall.
    split; [symmetry; by eapply Forall2_length|].
    by apply successes_sublist.
  - intros a1 a2 a3 r1 e2 r3 w1 w2 w3 H1 H2 H3.
    rewrite process_articles_outcomes. cbn [sequential_outcomes].
    by rewrite H1, H2, H3.
  - intros Hfail. rewrite process_articles_outcomes. f_equal. f_equal.
    fold outcomes. induction Hfail as [|o os [e ->] _ IH]; [done|]. apply IH.
Qed.

(** C7. A result of [summarize_article] carries the article's title,
    source, url and published timestamp, the Stage-A text as summary and
    the Stage-B text as sentiment; run on the article object, the function
    leaves the object as it found it. *)
Theorem summarize_article_assembles_result article w :
  (∀ r w',
     summarize_article article w = (inr r, w') →
     title r = a_title article ∧ source r = a_source article ∧
     url r = a_url article ∧ published_at r = a_published_at article ∧
     ∃ w1, summarize_step article w = (inr (summary r), w1) ∧
           sentiment_step (summary r) w1 = (inr (sentiment r), w')) ∧
  summarize_article_object (article, w) =
    ((summarize_article article w).1, (article, (summarize_article article w).2)).
Proof.
  split.
  - intros r w' Hr.
    destruct (summarize_article_built_from _ _ _ _ Hr) as (? & ? & ? & ?).
    repeat (split; [done|]).
    rewrite summarize_article_stages in Hr.
    destruct (summarize_step article w) as [[e|text] w1]; [done|].
    exists w1. rewrite sentiment_step_total.
    destruct (ask_cohere (sentiment_prompt text) w1) as [[e|s] w2] eqn:Hb;
      injection Hr as <- <-; cbn [summary sentiment make_result]; by rewrite Hb.
  - rewrite summarize_article_stages.
    unfold summarize_article_object, summarize_step, bind, try_except,
      getitem, gateway_call, ret; cbn [fst snd].
    fold (article_text article). fold (summary_prompt article).
    destruct (ask_openai (summary_prompt article) w) as [[e|text] w1]; cbn [fst snd].
    + destruct (ask_cohere (summary_prompt article) w1) as [[e'|text] w2];
        cbn [fst snd]; [done|].
      by destruct (ask_cohere (sentiment_prompt text) w2) as [[e'|s] w3].
    + by destruct (ask_cohere (sentiment_prompt text) w1) as [[e'|s] w3].
Qed.

End SummarizerFacts.

(** ** The pipeline on the scripted gateway *)

Lemma summarize_article_stage_a_fallback_witness :
  (ask_openai (summary_prompt (sample_article 1)) fallback_world).1
    = inl (lit "provider error") ∧
  (∃ r w3,
     summarize_article (sample_article 1) fallback_world = (inr r, w3) ∧
     summary r = lit "Short summary" ∧
     sentiment r = lit "Positive" ∧
     call_log w3 =
       [("openai"%string, summary_prompt (sample_article 1));
        ("cohere"%string, summary_prompt (sample_article 1));
        ("cohere"%string, sentiment_prompt (lit "Short summary"))]) ∧
  ∃ w2,
    summarize_article (sample_article 1) failing_world
      = (inl (lit "provider error"), w2) ∧
    call_log w2 =
      [("openai"%string, summary_prompt (sample_article 1));
       ("cohere"%string, summary_prompt (sample_article 1))].
Proof.
  split; [reflexivity|]. split.
  - pose (w1 := (ask_openai (summary_prompt (sample_article 1)) fallback_world).2).
    pose (w2 := (ask_cohere (summary_prompt (sample_article 1)) w1).2).
    assert (ask_openai (summary_prompt (sample_article 1)) fallback_world
            = (inl (lit "provider error"), w1)) as Hprimary by reflexivity.
    assert (ask_cohere (summary_prompt (sample_article 1)) w1
            = (inr (lit "Short summary"), w2)) as Hsecondary by reflexivity.
    destruct (proj1 (summarize_article_stage_a_fallback _ _ _ _ Hprimary)
                _ _ Hsecondary)
      as (r & w3 & Hr & Hsum & Hsent & ->).
    exists r, (ask_cohere (sentiment_prompt (lit "Short summary")) w2).2.
    split; [exact Hr|]. split; [exact Hsum|].
    split; [|reflexivity].
    injection Hsent as <-. reflexivity.
  - pose (w1 := (ask_openai (summary_prompt (sample_article 1)) failing_world).2).
    pose (w2 := (ask_cohere (summary_prompt (sample_article 1)) w1).2).
    assert (ask_openai (summary_prompt (sample_article 1)) failing_world
            = (inl (lit "provider error"), w1)) as Hprimary by reflexivity.
    assert (ask_cohere (summary_prompt (sample_article 1)) w1
            = (inl (lit "provider error"), w2)) as Hsecondary by reflexivity.
    exists w2. split; [|reflexivity].
    exact (proj2 (summarize_article_stage_a_fallback _ _ _ _ Hprimary)
             _ _ Hsecondary).
Defined.

Lemma summarize_article_sentiment_degraded_witness :
  (summarize_step (sample_article 1) no_sentiment_world).1
    = inr (lit "Short summary") ∧
  ∃ r w2,
    summarize_article (sample_article 1) no_sentiment_world = (inr r, w2) ∧
    sentiment r = lit "Unable to analyze sentiment" ∧
    summary r = lit "Short summary" ∧
    title r = lit "Test Article 1" ∧
    process_articles [sample_article 1] no_sentiment_world = (inr [r], w2).
Proof.
  split; [reflexivity|].
  pose (w1 := (summarize_step (sample_article 1) no_sentiment_world).2).
  pose (w2 := (ask_cohere (sentiment_prompt (lit "Short summary")) w1).2).
  assert (summarize_step (sample_article 1) no_sentiment_world
          = (inr (lit "Short summary"), w1)) as Ha by reflexivity.
  assert (ask_cohere (sentiment_prompt (lit "Short summary")) w1
          = (inl (lit "provider error"), w2)) as Hb by reflexivity.
  destruct (summarize_article_sentiment_degraded _ _ _ _ _ _ Ha Hb)
    as (r & Hr & Hsent & Hsum & Htitle & _ & _ & _ & Hbatch).
  exists r, w2.
  split; [exact Hr|]. split; [exact Hsent|]. split; [exact Hsum|].
  split; [rewrite Htitle; reflexivity|exact (Hbatch [])].
Defined.

Lemma process_articles_drops_failures_witness :
  ∃ r1 r3 w3,
    process_articles [sample_article 1; sample_article 2; sample_article 3]
                     second_fails_world = (inr [r1; r3], w3) ∧
    title r1 = a_title (sample_article 1) ∧
    title r3 = a_title (sample_article 3) ∧
    process_articles [sample_article 1; sample_article 2] failing_world
      = (inr [], (sequential_outcomes [sample_article 1; sample_article 2]
                                      failing_world).2).
Proof.
  pose (o1 := summarize_article (sample_article 1) second_fails_world).
  pose (o2 := summarize_article (sample_article 2) o1.2).
  pose (o3 := summarize_article (sample_article 3) o2.2).
  exists (make_result (sample_article 1) (lit "Summary 1") (lit "Positive")),
         (make_result (sample_article 3) (lit "Summary 3") (lit "Neutral")),
         o3.2.
  split; [|split; [reflexivity|split; [reflexivity|]]].
  - apply (proj1 (proj2 (process_articles_drops_failures [] second_fails_world))
             (sample_article 1) (sample_article 2) (sample_article 3)
             _ (lit "provider error") _ o1.2 o2.2 o3.2);
      vm_compute; reflexivity.
  - apply (proj2 (proj2 (process_articles_drops_failures
                           [sample_article 1; sample_article 2] failing_world))).
    repeat constructor; eexists; vm_compute; reflexivity.
Defined.

Lemma summarize_article_assembles_result_witness :
  ∃ r w',
    summarize_article (sample_article 1) fallback_world = (inr r, w') ∧
    title r = lit "Test Article 1" ∧ source r = lit "Test Source" ∧
    url r = lit "https://example.com" ∧ published_at r = lit "2026-01-19" ∧
    (summarize_article_object (sample_article 1, fallback_world)).2.1
      = sample_article 1.
Proof.
  pose (o := summarize_article (sample_article 1) fallback_world).
  assert (∃ r, o = (inr r, o.2)) as [r Hr] by (eexists; vm_compute; reflexivity).
  exists r, o.2. split; [exact Hr|].
  destruct (summarize_article_assembles_result (sample_article 1) fallback_world)
    as [Hfields Hobject].
  destruct (Hfields r o.2 Hr) as (Ht & Hs & Hu & Hp & _).
  rewrite Ht, Hs, Hu, Hp, Hobject.
  repeat (split; [reflexivity|]). reflexivity.
Defined.

(** ** Cost tracker *)

Lemma logged_cost_snoc log r :
  logged_cost (log ++ [r]) = (logged_cost log + pr_cost r)%Qc.
Proof.
  induction log as [|r' log IH]; cbn.
  - ring.
  - fold (logged_cost (log ++ [r])). fold (logged_cost log). rewrite IH. ring.
Qed.

Lemma track_request_balanced prices provider model i o t :
  balanced t → balanced (track_request prices provider model i o t).2.
Proof.
  unfold balanced, track_request. intros Ht.
  destruct (prices !! (provider, model)) as [rates|]; cbn; [|done].
  by rewrite logged_cost_snoc, Ht.
Qed.

Lemma track_all_balanced prices calls t :
  balanced t → balanced (track_all prices calls t).
Proof.
  revert t. induction calls as [|c calls IH]; intros t Ht; [done|].
  cbn. apply IH. by apply track_request_balanced.
Qed.

(** C4. A [track_request] call for a priced provider/model pair computes
    [input_tokens/1000 * in_rate + output_tokens/1000 * out_rate], appends
    exactly one entry carrying that cost to the log, adds exactly that cost
    to the running total and returns it; after any sequence of calls on a
    fresh tracker the running total is the sum of the logged costs. *)
Theorem track_request_accounting prices :
  (∀ provider model i o t in_rate out_rate,
     prices !! (provider, model) = Some (in_rate, out_rate) →
     let cost := (Qc_of_N i / Qc_of_Z 1000 * in_rate
                  + Qc_of_N o / Qc_of_Z 1000 * out_rate)%Qc in
     ∃ t',
       track_request prices provider model i o t = (inr cost, t') ∧
       requests t' = requests t ++ [mkPricedRequest provider model i o cost] ∧
       length (requests t') = S (length (requests t)) ∧
       total_cost t' = (total_cost t + cost)%Qc) ∧
  (∀ calls,
     total_cost (track_all prices calls new_tracker)
     = logged_cost (requests (track_all prices calls new_tracker))).
Proof.
  split.
  - intros provider model i o t in_rate out_rate Hprice cost.
    unfold track_request. rewrite Hprice. eexists. split; [reflexivity|].
    cbn. split; [done|]. split; [|done].
    rewrite length_app. cbn. lia.
  - intros calls. by apply track_all_balanced.
Qed.

(** C5. [check_budget] never changes the tracker; it fails, with a
    Budget-Exceeded error, exactly when the running total is strictly above
    the ceiling, and succeeds exactly when the total is at or below it. *)
Theorem check_budget_strict ceiling t :
  (check_budget ceiling t).2 = t ∧
  ((check_budget ceiling t).1 = inl (BudgetExceeded (total_cost t) ceiling)
     ↔ (ceiling < total_cost t)%Qc) ∧
  ((check_budget ceiling t).1 = inr () ↔ (total_cost t ≤ ceiling)%Qc).
Proof.
  unfold check_budget. case_decide as Hlt; cbn.
  - split; [done|]. split; [done|]. split; [done|].
    intros Hle. by apply Qcle_ngt in Hle.
  - split; [done|]. split; [done|]. split; [|done].
    intros _. by apply Qcle_ngt.
Qed.

(** The scenario of [test_track_request]: one request on a fresh tracker. *)
Lemma track_request_accounting_witness :
  sample_prices !! ("openai"%string, "gpt-4o-mini"%string)
    = Some ((Qc_of_Z 15 / Qc_of_Z 100000)%Qc, (Qc_of_Z 60 / Qc_of_Z 100000)%Qc) ∧
  ∃ cost t',
    track_request sample_prices "openai" "gpt-4o-mini" 100 500 new_tracker
      = (inr cost, t') ∧
    (0 < cost)%Qc ∧ total_cost t' = cost ∧ length (requests t') = 1.
Proof.
  assert (sample_prices !! ("openai"%string, "gpt-4o-mini"%string)
    = Some ((Qc_of_Z 15 / Qc_of_Z 100000)%Qc, (Qc_of_Z 60 / Qc_of_Z 100000)%Qc))
    as Hprice by (vm_compute; reflexivity).
  split; [exact Hprice|].
  destruct (proj1 (track_request_accounting sample_prices)
              "openai"%string "gpt-4o-mini"%string 100%N 500%N new_tracker _ _ Hprice)
    as (t' & Hrun & _ & Hlen & Htotal).
  eexists _, t'. split; [exact Hrun|].
  split; [vm_compute; reflexivity|].
  split; [|exact Hlen].
  rewrite Htotal. apply Qcplus_0_l.
Defined.

(** The scenario of [test_budget_check], and a total equal to the ceiling. *)
Example check_budget_examples :
  (check_budget (Qc_of_Z 10)
     (track_request sample_prices "openai" "gpt-4o-mini" 100 100 new_tracker).2).1
    = inr () ∧
  (check_budget (Qc_of_Z 10) {| requests := []; total_cost := Qc_of_Z 15 |}).1
    = inl (BudgetExceeded (Qc_of_Z 15) (Qc_of_Z 10)) ∧
  (check_budget (Qc_of_Z 15) {| requests := []; total_cost := Qc_of_Z 15 |}).1
    = inr ().
Proof. repeat split; vm_compute; reflexivity. Qed.

(** ** Rate limiter *)

(** A call that follows an earlier one starts at least the minimum
    spacing after it, whatever the clock reads. *)
Lemma required_wait_spacing now s last :
  last_call s = Some last →
  (last + min_interval s ≤ now + required_wait now s)%Qc.
Proof.
  intros Hlast. unfold required_wait. rewrite Hlast. cbv zeta.
  case_decide as Hlt.
  - replace (now + (min_interval s - (now - last)))%Qc
      with (last + min_interval s)%Qc by ring.
    done.
  - apply Qcle_ngt in Hlt. rewrite Qcplus_0_r.
    apply (Qcplus_le_mono_l _ _ last) in Hlt.
    by replace (last + (now - last))%Qc with now in Hlt by ring.
Qed.

Lemma enforce_rate_limit_lookup provider now limits start limits' :
  enforce_rate_limit provider now limits = Some (start, limits') →
  ∃ s, limits !! provider = Some s ∧
       start = (now + required_wait now s)%Qc ∧
       limits' !! provider
         = Some {| last_call := Some start; min_interval := min_interval s |} ∧
       ∀ other, other ≠ provider → limits' !! other = limits !! other.
Proof.
  unfold enforce_rate_limit.
  destruct (limits !! provider) as [s|] eqn:Hs; [|done].
  intros [= <- <-]. exists s. split; [done|]. split; [done|].
  split; [by rewrite lookup_insert_eq|].
  intros other Hne. by rewrite lookup_insert_ne.
Qed.

Lemma enforce_rate_limit_lookup_None provider now limits :
  enforce_rate_limit provider now limits = None → limits !! provider = None.
Proof. unfold enforce_rate_limit. by destruct (limits !! provider). Qed.

(** The starts of one provider's calls only depend on that provider's
    entry of the limiter table. *)
Lemma call_starts_filter provider calls limits1 limits2 :
  limits1 !! provider = limits2 !! provider →
  filter (λ c, c.1 = provider) (call_starts calls limits1)
  = call_starts (filter (λ c, c.1 = provider) calls) limits2.
Proof.
  revert limits1 limits2.
  induction calls as [|[q now] calls IH]; intros limits1 limits2 Hagree; [done|].
  cbn [call_starts]. destruct (decide (q = provider)) as [->|Hne].
  - rewrite filter_cons_True by done. cbn [call_starts].
    unfold enforce_rate_limit. rewrite <- Hagree.
    destruct (limits1 !! provider) as [s|] eqn:Hs; [|apply IH; congruence].
    rewrite filter_cons_True by done. f_equal.
    apply IH. by rewrite !lookup_insert_eq.
  - rewrite (filter_cons_False _ (q, now)) by done.
    destruct (enforce_rate_limit q now limits1) as [[start limits1']|] eqn:Hq;
      [|by apply IH].
    rewrite filter_cons_False by done.
    apply IH. rewrite <- Hagree.
    apply enforce_rate_limit_lookup in Hq as (_ & _ & _ & _ & Hother).
    by apply Hother.
Qed.

(** Adjacent starts of a run of calls to a single provider. *)
Lemma call_starts_adjacent provider calls limits s pre t1 t2 post :
  Forall (λ c, c.1 = provider) calls →
  limits !! provider = Some s →
  call_starts calls limits = pre ++ (provider, t1) :: (provider, t2) :: post →
  (t1 + min_interval s ≤ t2)%Qc.
Proof.
  intros Hcalls. revert limits s pre.
  induction Hcalls as [|[q now] calls Hq Hcalls IH]; intros limits s pre Hs Hrun.
  { by destruct pre. }
  cbn in Hq. subst q. cbn [call_starts] in Hrun.
  destruct (enforce_rate_limit provider now limits) as [[start limits']|] eqn:Hnow.
  2:{ apply enforce_rate_limit_lookup_None in Hnow. congruence. }
  apply enforce_rate_limit_lookup in Hnow as (s0 & Hs0 & Hstart & Hs' & _).
  assert (s0 = s) as -> by congruence.
  destruct pre as [|c pre]; cbn in Hrun.
  - injection Hrun as -> Hrest.
    destruct Hcalls as [|[q now2] calls Hq2 _]; [done|].
    cbn in Hq2. subst q. cbn [call_starts] in Hrest.
    unfold enforce_rate_limit in Hrest. rewrite Hs' in Hrest.
    injection Hrest as <- _.
    by apply (required_wait_spacing now2 {| last_call := Some t1 |}).
  - injection Hrun as _ Hrest.
    by apply (IH _ _ _ Hs' Hrest).
Qed.

Lemma filter_other_providers (provider : string) (l : list (string * Qc)) :
  provider ∉ l.*1 → filter (λ c, c.1 = provider) l = [].
Proof.
  induction l as [|[q t] l IH]; [done|].
  rewrite fmap_cons, not_elem_of_cons. cbn [fst]. intros [Hne Hl].
  rewrite filter_cons_False by (cbn; congruence). by apply IH.
Qed.

(** C9. In the sequence of calls that pass through the gateway's critical
    section, in whatever order concurrent callers enter it and whatever
    the clock reads, two consecutive calls to the same provider start at
    least [60/rpm] seconds apart; and the start times of a provider's
    calls are those it would have had without the calls to the other
    providers. *)
Theorem rate_limiter_spacing limits calls :
  (∀ provider rpm s pre t1 mid t2 post,
     limits !! provider = Some s →
     min_interval s = spacing rpm →
     call_starts calls limits
       = pre ++ (provider, t1) :: mid ++ (provider, t2) :: post →
     provider ∉ mid.*1 →
     (t1 + Qc_of_Z 60 / rpm ≤ t2)%Qc) ∧
  (∀ provider,
     filter (λ c, c.1 = provider) (call_starts calls limits)
     = call_starts (filter (λ c, c.1 = provider) calls) limits).
Proof.
  split.
  - intros provider rpm s pre t1 mid t2 post Hs Hrpm Hrun Hmid.
    change (Qc_of_Z 60 / rpm)%Qc with (spacing rpm). rewrite <- Hrpm.
    apply (call_starts_adjacent provider
             (filter (λ c, c.1 = provider) calls) limits s
             (filter (λ c, c.1 = provider) pre) t1 t2
             (filter (λ c, c.1 = provider) post)); [|done|].
    + apply Forall_forall. intros c Hc. by apply list_elem_of_filter in Hc as [? _].
    + rewrite <- (call_starts_filter provider calls limits limits) by done.
      rewrite Hrun, filter_app, filter_cons_True, filter_app by done.
      by rewrite (filter_other_providers _ mid), filter_cons_True by done.
  - intros provider. by apply call_starts_filter.
Qed.

(** Two back-to-back OpenAI calls with a Cohere call in between, all
    entering at time 0: the second OpenAI call starts [60/500] seconds
    later, the Cohere call is not delayed. *)
Lemma rate_limiter_spacing_witness :
  call_starts [("openai"%string, 0%Qc); ("cohere"%string, 0%Qc);
               ("openai"%string, 0%Qc)] configured_limits
    = [("openai"%string, 0%Qc); ("cohere"%string, 0%Qc);
       ("openai"%string, (Qc_of_Z 3 / Qc_of_Z 25)%Qc)] ∧
  (0 + Qc_of_Z 60 / OPENAI_RPM ≤ Qc_of_Z 3 / Qc_of_Z 25)%Qc.
Proof.
  assert (call_starts [("openai"%string, 0%Qc); ("cohere"%string, 0%Qc);
                       ("openai"%string, 0%Qc)] configured_limits
          = [] ++ ("openai"%string, 0%Qc) :: [("cohere"%string, 0%Qc)] ++
            ("openai"%string, (Qc_of_Z 3 / Qc_of_Z 25)%Qc) :: []) as Hrun
    by (vm_compute; reflexivity).
  split; [exact Hrun|].
  apply (proj1 (rate_limiter_spacing configured_limits _)
           "openai"%string OPENAI_RPM (new_limiter OPENAI_RPM) _ _ _ _ _
           eq_refl eq_refl Hrun).
  vm_compute. intros Hin. inversion Hin as [|? ? ? Hin']; inversion Hin'.
Defined.

(** ** Bounded-concurrency mode *)

Section AsyncFacts.
Context {W E : Type} {llm_providers : LLMProviders W E}.
Implicit Types (tasks : list (task E)) (w : W) (article : Article).

(** *** The semaphore *)

Lemma in_flight_finished outcome tasks :
  in_flight (Finished outcome :: tasks) = in_flight tasks.
Proof. unfold in_flight. by rewrite filter_cons_False. Qed.

Lemma in_flight_running article pos tasks :
  in_flight (Running article pos :: tasks) = S (in_flight tasks).
Proof. unfold in_flight. by rewrite filter_cons_True. Qed.

Lemma in_flight_waiting article tasks :
  in_flight (Waiting article :: tasks) = in_flight tasks.
Proof. unfold in_flight. by rewrite filter_cons_False. Qed.

Lemma in_flight_all_waiting (articles : list Article) :
  in_flight (E:=E) (Waiting <$> articles) = 0.
Proof.
  induction articles as [|a articles IH]; [done|].
  by rewrite fmap_cons, in_flight_waiting.
Qed.

Lemma can_acquire_finished n i outcome tasks :
  can_acquire n (S i) (Finished outcome :: tasks) = can_acquire n i tasks.
Proof. unfold can_acquire. by rewrite in_flight_finished. Qed.

(** *** One thread *)

(** The three positions of a thread and the two ways the provider call
    made there can end. *)
Ltac thread_step_cases pos w :=
  destruct pos as [| |?text]; cbn [thread_step];
  [ destruct (ask_openai _ w) as [[?e|?text] ?w1]
  | destruct (ask_cohere _ w) as [[?e|?text] ?w1]
  | destruct (ask_cohere _ w) as [[?e|?s] ?w1] ].

Lemma thread_step_shape article pos w t' w' :
  thread_step article pos w = (t', w') →
  (∃ pos', t' = Running article pos') ∨ (∃ outcome, t' = Finished outcome).
Proof. thread_step_cases pos w; intros [= <- _]; eauto. Qed.

(** A provider call of the thread followed by the rest of the article is
    the rest of the article before the call. *)
Lemma thread_step_rest article pos w t' w' :
  thread_step article pos w = (t', w') →
  rest_of_task t' w' = rest_of_article article pos w.
Proof.
  destruct pos as [| |text]; cbn [thread_step rest_of_article].
  - rewrite summarize_article_stages.
    unfold summarize_step, try_except.
    destruct (ask_openai _ w) as [[e|text] w1]; intros [= <- <-];
      cbn [rest_of_task rest_of_article]; unfold bind.
    + destruct (ask_cohere (summary_prompt article) w1) as [[e'|text] w2]; [done|].
      rewrite sentiment_step_total.
      by destruct (ask_cohere (sentiment_prompt text) w2) as [[e'|s] w3].
    + rewrite sentiment_step_total.
      by destruct (ask_cohere (sentiment_prompt text) w1) as [[e|s] w2].
  - unfold bind at 1.
    destruct (ask_cohere _ w) as [[e|text] w1]; intros [= <- <-];
      cbn [rest_of_task rest_of_article]; done.
  - unfold bind. rewrite sentiment_step_total.
    destruct (ask_cohere _ w) as [[e|s] w1]; intros [= <- <-]; done.
Qed.

Lemma thread_step_remaining article pos w t' w' :
  thread_step article pos w = (t', w') →
  remaining_steps t' < remaining_steps (Running (E:=E) article pos).
Proof. thread_step_cases pos w; intros [= <- _]; cbn; lia. Qed.

Lemma thread_step_task_of a article pos w t' w' :
  thread_step article pos w = (t', w') →
  task_of a (Running (E:=E) article pos) → task_of a t'.
Proof.
  cbn. intros Hstep ->. revert Hstep.
  thread_step_cases pos w; intros [= <- _]; by repeat split.
Qed.

(** *** Runs in task order *)

Lemma run_in_order_waiting (articles : list Article) w :
  run_in_order (Waiting <$> articles) w = sequential_outcomes articles w.
Proof.
  revert w. induction articles as [|a articles IH]; intros w; [done|].
  cbn. destruct (summarize_article a w) as [o w1]. by rewrite IH.
Qed.

Lemma run_in_order_gathered tasks w outcomes :
  gathered tasks = Some outcomes → run_in_order tasks w = (outcomes, w).
Proof.
  revert outcomes. induction tasks as [|t tasks IH]; intros outcomes.
  - by intros [= <-].
  - unfold gathered. cbn. destruct t as [a|a pos|o]; cbn; try done.
    fold (gathered tasks).
    destruct (gathered tasks) as [os|]; cbn; [|done].
    intros [= <-]. by rewrite (IH os).
Qed.

Lemma gathered_finished tasks outcomes :
  gathered tasks = Some outcomes →
  tasks = Finished <$> outcomes.
Proof.
  revert outcomes. induction tasks as [|t tasks IH]; intros outcomes.
  - by intros [= <-].
  - unfold gathered. cbn. destruct t as [a|a pos|o]; cbn; try done.
    fold (gathered tasks).
    destruct (gathered tasks) as [os|]; cbn; [|done].
    intros [= <-]. by rewrite (IH os).
Qed.

(** *** Moves *)

Lemma lookup_tail {A} (x : A) (l : list A) i : (x :: l) !! S i = l !! i.
Proof. reflexivity. Qed.

Lemma insert_tail {A} (x y : A) (l : list A) i :
  <[S i := y]> (x :: l) = x :: <[i := y]> l.
Proof. reflexivity. Qed.

(** What a move of task [i] does to the task list. *)
Lemma step_inv n i tasks w tasks' w' :
  step n i (tasks, w) = Some (tasks', w') →
  ∃ t t', tasks !! i = Some t ∧ tasks' = <[i := t']> tasks ∧
    ((∃ article, t = Waiting article ∧ t' = Running article AtPrimary ∧
                 w' = w ∧ can_acquire n i tasks = true) ∨
     (∃ article pos, t = Running article pos ∧
                     thread_step article pos w = (t', w'))).
Proof.
  unfold step. destruct (tasks !! i) as [[a|a pos|o]|] eqn:Hi; [| |done|done].
  - destruct (can_acquire n i tasks) eqn:Hacq; [|done].
    intros [= <- <-]. eexists _, _. split; [done|]. split; [done|].
    left. by exists a.
  - destruct (thread_step a pos w) as [t' w1] eqn:Hstep.
    intros [= <- <-]. eexists _, _. split; [done|]. split; [done|].
    right. by exists a, pos.
Qed.

(** A finished task at the head takes no part in the moves of the others. *)
Lemma step_cons_finished n i outcome tasks w :
  step n (S i) (Finished outcome :: tasks, w)
  = (λ c, (Finished outcome :: c.1, c.2)) <$> step n i (tasks, w).
Proof.
  unfold step. rewrite lookup_tail.
  destruct (tasks !! i) as [[a|a pos|o]|]; [| |done|done].
  - rewrite can_acquire_finished. by destruct (can_acquire n i tasks).
  - by destruct (thread_step a pos w).
Qed.

(** *** A single slot *)

Lemma step_serial i tasks w tasks' w' :
  serial tasks →
  step 1 i (tasks, w) = Some (tasks', w') →
  serial tasks' ∧ run_in_order tasks' w' = run_in_order tasks w.
Proof.
  intros Hserial. revert i tasks' w'.
  induction Hserial as [o tasks Hserial IH|a pos rest|rest]; intros i tasks' w'.
  - destruct i as [|i]; [done|].
    rewrite step_cons_finished.
    destruct (step 1 i (tasks, w)) as [[tasks1 w1]|] eqn:Hstep; [|done].
    intros [= <- <-]. destruct (IH _ _ _ Hstep) as [Hserial1 Hrun].
    split; [by constructor|]. cbn. by rewrite Hrun.
  - destruct i as [|i]; unfold step.
    + change ((Running a pos :: (Waiting <$> rest)) !! 0)
        with (Some (Running (E:=E) a pos)).
      destruct (thread_step a pos w) as [t1 w1] eqn:Hstep.
      cbv beta iota zeta. rewrite ?Hstep.
      intros [= <- <-].
      change (<[0 := t1]> (Running a pos :: (Waiting <$> rest)))
        with (t1 :: (Waiting (E:=E) <$> rest)).
      split.
      * destruct (thread_step_shape _ _ _ _ _ Hstep) as [[pos' ->]|[o ->]];
          repeat constructor.
      * cbn [run_in_order]. by rewrite (thread_step_rest _ _ _ _ _ Hstep).
    + rewrite lookup_tail, list_lookup_fmap.
      destruct (rest !! i) as [a'|]; [|done]. cbn [fmap option_fmap option_map].
      unfold can_acquire. rewrite in_flight_running.
      rewrite bool_decide_eq_false_2 by lia. by rewrite andb_false_r.
  - destruct rest as [|a rest]; [done|]. rewrite fmap_cons.
    destruct i as [|i]; unfold step.
    + change ((Waiting a :: (Waiting <$> rest)) !! 0)
        with (Some (Waiting (E:=E) a)).
      unfold can_acquire. rewrite in_flight_waiting, in_flight_all_waiting.
      rewrite bool_decide_eq_true_2 by lia. cbn [take forallb andb].
      intros [= <- <-]. split; [apply serial_running|done].
    + rewrite lookup_tail, list_lookup_fmap.
      destruct (rest !! i) as [a'|]; [|done]. cbn [fmap option_fmap option_map].
      unfold can_acquire. by cbn [take forallb is_waiting negb andb].
Qed.

Lemma run_schedule_serial schedule tasks w tasks' w' :
  serial tasks →
  run_schedule 1 schedule (tasks, w) = Some (tasks', w') →
  serial tasks' ∧ run_in_order tasks' w' = run_in_order tasks w.
Proof.
  revert tasks w. induction schedule as [|i schedule IH]; intros tasks w Hserial.
  - by intros [= <- <-].
  - cbn [run_schedule].
    destruct (step 1 i (tasks, w)) as [[tasks1 w1]|] eqn:Hstep; [|done].
    intros Hrun. destruct (step_serial _ _ _ _ _ Hserial Hstep) as [Hserial1 <-].
    by apply IH.
Qed.

(** With one slot every run that returns ends with the outcomes, and the
    gateway state, of the sequential run. *)
Lemma one_slot_outcomes articles schedule w tasks w' outcomes :
  run_schedule 1 schedule (Waiting <$> articles, w) = Some (tasks, w') →
  gathered tasks = Some outcomes →
  sequential_outcomes articles w = (outcomes, w').
Proof.
  intros Hrun Hgathered.
  destruct (run_schedule_serial _ _ _ _ _ (serial_waiting articles) Hrun)
    as [_ Hsame].
  by rewrite <- run_in_order_waiting, <- Hsame,
    (run_in_order_gathered _ _ _ Hgathered).
Qed.

(** *** Any number of slots *)

Lemma step_task_of n i articles tasks w tasks' w' :
  Forall2 task_of articles tasks →
  step n i (tasks, w) = Some (tasks', w') →
  Forall2 task_of articles tasks'.
Proof.
  intros Hall Hstep.
  apply step_inv in Hstep as (t & t' & Hi & -> & Hmove).
  destruct (Forall2_lookup_r _ _ _ _ _ Hall Hi) as (a & Ha & Hat).
  rewrite <- (list_insert_id articles i a Ha).
  apply Forall2_insert; [done|].
  destruct Hmove as [(a' & -> & -> & _)|(a' & pos & -> & Hstep)]; [done|].
  by eapply thread_step_task_of.
Qed.

Lemma run_schedule_task_of n schedule articles tasks w tasks' w' :
  Forall2 task_of articles tasks →
  run_schedule n schedule (tasks, w) = Some (tasks', w') →
  Forall2 task_of articles tasks'.
Proof.
  revert tasks w. induction schedule as [|i schedule IH]; intros tasks w Hall.
  - by intros [= <- <-].
  - cbn [run_schedule].
    destruct (step n i (tasks, w)) as [[tasks1 w1]|] eqn:Hstep; [|done].
    apply IH. by eapply step_task_of.
Qed.

Lemma task_of_initial (articles : list Article) :
  Forall2 (task_of (E:=E)) articles (Waiting <$> articles).
Proof. induction articles; by constructor. Qed.

Lemma remaining_insert tasks i t t' :
  tasks !! i = Some t →
  remaining_steps t' < remaining_steps t →
  remaining (<[i := t']> tasks) < remaining tasks.
Proof.
  revert i. induction tasks as [|t0 tasks IH]; intros i; [done|].
  destruct i as [|i].
  - intros [= ->] Hlt. unfold remaining. cbn. lia.
  - rewrite lookup_tail, insert_tail. intros Hi Hlt.
    specialize (IH _ Hi Hlt). unfold remaining in *. cbn. lia.
Qed.

(** Every move uses up some of the work that is left. *)
Lemma step_remaining n i tasks w tasks' w' :
  step n i (tasks, w) = Some (tasks', w') →
  remaining tasks' < remaining tasks.
Proof.
  intros Hstep.
  apply step_inv in Hstep as (t & t' & Hi & -> & Hmove).
  apply (remaining_insert _ _ _ _ Hi).
  destruct Hmove as [(a' & -> & -> & _)|(a' & pos & -> & Hstep)]; [cbn; lia|].
  by eapply thread_step_remaining.
Qed.

Lemma run_schedule_remaining n schedule tasks w tasks' w' :
  run_schedule n schedule (tasks, w) = Some (tasks', w') →
  length schedule + remaining tasks' ≤ remaining tasks.
Proof.
  revert tasks w. induction schedule as [|i schedule IH]; intros tasks w.
  - by intros [= <- <-].
  - cbn [run_schedule].
    destruct (step n i (tasks, w)) as [[tasks1 w1]|] eqn:Hstep; [|done].
    intros Hrun. apply IH in Hrun. apply step_remaining in Hstep. cbn. lia.
Qed.

Lemma remaining_initial (articles : list Article) :
  remaining (E:=E) (Waiting <$> articles) = 4 * length articles.
Proof.
  unfold remaining. induction articles as [|a articles IH]; [done|].
  cbn in *. lia.
Qed.

Lemma run_schedule_app n schedule1 schedule2 c :
  run_schedule n (schedule1 ++ schedule2) c
  = run_schedule n schedule1 c ≫= run_schedule n schedule2.
Proof.
  revert c. induction schedule1 as [|i schedule1 IH]; intros c; [done|].
  cbn [app run_schedule]. by destruct (step n i c).
Qed.

(** When nothing is in flight, the first task that has not finished is
    waiting, with no waiting task before it. *)
Lemma first_waiting tasks :
  Forall (λ t, is_running t = false) tasks →
  gathered tasks = None →
  ∃ i article,
    tasks !! i = Some (Waiting article) ∧
    forallb (λ t, negb (is_waiting t)) (take i tasks) = true ∧
    in_flight tasks = 0.
Proof.
  induction 1 as [|t tasks Ht Hall IH]; [done|].
  destruct t as [a|a pos|o]; [|done|].
  - intros _. exists 0, a. split; [done|]. split; [done|].
    rewrite in_flight_waiting. clear IH.
    induction Hall as [|t tasks Ht' _ IH]; [done|].
    unfold in_flight in *. rewrite filter_cons_False; [done|]. by rewrite Ht'.
  - intros Hg. unfold gathered in Hg. cbn in Hg. fold (gathered tasks) in Hg.
    destruct (gathered tasks) as [os|]; [done|].
    destruct IH as (i & a & Hi & Hbefore & Hflight); [done|].
    exists (S i), a. split; [done|]. split; [done|].
    by rewrite in_flight_finished.
Qed.

(** No deadlock: with at least one slot, some task can move as long as
    [gather] is still waiting for a task. *)
Lemma step_progress n tasks w :
  1 ≤ n → gathered tasks = None → ∃ i c', step n i (tasks, w) = Some c'.
Proof.
  intros Hn Hgathered.
  destruct (decide (Exists (λ t, is_running t = true) tasks)) as [Hrun|Hidle].
  - apply Exists_exists in Hrun as (t & Ht & Hrunning).
    apply list_elem_of_lookup in Ht as [i Hi].
    destruct t as [a|a pos|o]; try done.
    exists i. unfold step. rewrite Hi.
    destruct (thread_step a pos w). by eexists.
  - apply not_Exists_Forall in Hidle; [|intros t; apply _].
    destruct (first_waiting tasks) as (i & a & Hi & Hbefore & Hflight); [|done|].
    { eapply Forall_impl; [done|]. intros t Ht. cbn in Ht.
      by destruct (is_running t). }
    exists i. unfold step, can_acquire. rewrite Hi, Hbefore, Hflight.
    rewrite bool_decide_eq_true_2 by lia. by eexists.
Qed.

(** Every state of a run can be brought to the point where [gather] has
    all outcomes. *)
Lemma run_to_completion n tasks w :
  1 ≤ n →
  ∃ schedule tasks' w' outcomes,
    run_schedule n schedule (tasks, w) = Some (tasks', w') ∧
    gathered tasks' = Some outcomes.
Proof.
  intros Hn. remember (remaining tasks) as k eqn:Hk.
  revert tasks w Hk. induction (lt_wf k) as [k _ IH]; intros tasks w ->.
  destruct (gathered tasks) as [outcomes|] eqn:Hgathered.
  - by exists [], tasks, w, outcomes.
  - destruct (step_progress n tasks w Hn Hgathered) as (i & [tasks1 w1] & Hstep).
    destruct (IH (remaining tasks1) (step_remaining _ _ _ _ _ _ Hstep)
                tasks1 w1 eq_refl)
      as (schedule & tasks' & w' & outcomes & Hrun & Hdone).
    exists (i :: schedule), tasks', w', outcomes.
    cbn [run_schedule]. by rewrite Hstep.
Qed.

Lemma gathered_task_of articles tasks outcomes :
  Forall2 task_of articles tasks →
  gathered tasks = Some outcomes →
  Forall2 (λ a o, match o with inr r => built_from a r | inl _ => True end)
          articles outcomes.
Proof.
  intros Hall Hgathered. apply gathered_finished in Hgathered as ->.
  rewrite Forall2_fmap_r in Hall.
  eapply Forall2_impl; [done|]. by intros a [e|r].
Qed.

Lemma thread_step_produced a article pos w t' w' :
  thread_step article pos w = (t', w') →
  produced a (Running article pos) → produced a t'.
Proof.
  destruct pos as [| |text]; cbn [thread_step produced].
  - intros Hstep ->. revert Hstep.
    destruct (ask_openai (summary_prompt a) w) as [[e|text] w1] eqn:Hcall;
      intros [= <- _]; cbn [produced]; (split; [done|]).
    + exists w, e. by rewrite Hcall.
    + exists w. left. by rewrite Hcall.
  - intros Hstep [-> Hfailed]. revert Hstep.
    destruct (ask_cohere (summary_prompt a) w) as [[e|text] w1] eqn:Hcall;
      intros [= <- _]; cbn [produced outcome_of].
    + split; [done|]. exists w. by rewrite Hcall.
    + split; [done|]. exists w. right. by rewrite Hcall.
  - intros Hstep [-> Hsummary]. revert Hstep.
    destruct (ask_cohere (sentiment_prompt text) w) as [[e|mood] w1] eqn:Hcall;
      intros [= <- _]; cbn [produced outcome_of summary sentiment make_result];
      (split; [by repeat split|]); (split; [done|]); exists w; rewrite Hcall.
    + right. split; [by exists e|done].
    + by left.
Qed.

Lemma run_schedule_produced n schedule articles tasks w tasks' w' :
  Forall2 produced articles tasks →
  run_schedule n schedule (tasks, w) = Some (tasks', w') →
  Forall2 produced articles tasks'.
Proof.
  revert tasks w. induction schedule as [|i schedule IH]; intros tasks w Hall.
  - by intros [= <- <-].
  - cbn [run_schedule].
    destruct (step n i (tasks, w)) as [[tasks1 w1]|] eqn:Hstep; [|done].
    apply IH. clear IH.
    apply step_inv in Hstep as (t & t' & Hi & -> & Hmove).
    destruct (Forall2_lookup_r _ _ _ _ _ Hall Hi) as (a & Ha & Hat).
    rewrite <- (list_insert_id articles i a Ha).
    apply Forall2_insert; [done|].
    destruct Hmove as [(a' & -> & -> & _)|(a' & pos & -> & Hstep)]; [done|].
    by eapply thread_step_produced.
Qed.

Lemma produced_initial (articles : list Article) :
  Forall2 (produced (E:=E)) articles (Waiting <$> articles).
Proof. induction articles; by constructor. Qed.

(** C10. With at least one slot, whatever the scheduling,
    [process_articles_async] returns only once every task has finished,
    after at most four moves per article.  The i-th task ends with an
    outcome of the pipeline for the i-th article, and the returned list
    holds exactly the results among these outcomes, in task order: the
    successful results, in the relative order of their input articles.
    Every run can be continued until it returns. *)
Theorem process_articles_async_ordered articles max_concurrent :
  1 ≤ max_concurrent →
  (∀ schedule w results w',
     process_articles_async articles max_concurrent schedule w
       = Some (results, w') →
     (∃ outcomes,
        run_schedule max_concurrent schedule (Waiting <$> articles, w)
          = Some (Finished <$> outcomes, w') ∧
        Forall2 outcome_of articles outcomes ∧
        results = omap (λ o, match o with inr r => Some r | inl _ => None end)
                       outcomes) ∧
     (∃ kept, sublist kept articles ∧ Forall2 built_from kept results) ∧
     (∃ tasks,
        run_schedule max_concurrent schedule (Waiting <$> articles, w)
          = Some (tasks, w') ∧
        length tasks = length articles ∧
        Forall (λ t, is_finished t = true) tasks) ∧
     length schedule ≤ 4 * length articles) ∧
  (∀ schedule w c,
     run_schedule max_concurrent schedule (Waiting <$> articles, w) = Some c →
     ∃ schedule' out,
       process_articles_async articles max_concurrent (schedule ++ schedule') w
         = Some out).
Proof.
  intros Hn. split.
  - intros schedule w results w'. unfold process_articles_async.
    destruct (run_schedule _ _ _) as [[tasks w1]|] eqn:Hrun; [|done].
    destruct (gathered tasks) as [outcomes|] eqn:Hgathered; [|done].
    intros [= <- <-].
    pose proof (run_schedule_task_of _ _ _ _ _ _ _ (task_of_initial articles) Hrun)
      as Hall.
    pose proof (run_schedule_produced _ _ _ _ _ _ _ (produced_initial articles) Hrun)
      as Hproduced.
    split; [|split; [|split]].
    + exists outcomes. rewrite <- (gathered_finished _ _ Hgathered).
      split; [done|]. split; [|done].
      rewrite (gathered_finished _ _ Hgathered), Forall2_fmap_r in Hproduced.
      done.
    + apply successes_sublist. by eapply gathered_task_of.
    + exists tasks. split; [done|]. split.
      * symmetry. by eapply Forall2_length.
      * rewrite (gathered_finished _ _ Hgathered). by apply Forall_fmap, Forall_true.
    + apply run_schedule_remaining in Hrun. rewrite remaining_initial in Hrun. lia.
  - intros schedule w [tasks w1] Hrun.
    destruct (run_to_completion max_concurrent tasks w1 Hn)
      as (schedule' & tasks' & w' & outcomes & Hrest & Hgathered).
    exists schedule', (successes outcomes, w').
    unfold process_articles_async. rewrite run_schedule_app, Hrun. cbn.
    by rewrite Hrest, Hgathered.
Qed.

(** C8. With [max_concurrent = 1] a run of [process_articles_async] exists,
    and every run ends with the per-article outcomes of the sequential
    loop (the same successes and the same failures) and returns what
    [process_articles] returns, leaving the gateway in the same state. *)
Theorem process_articles_async_one_slot articles w :
  (∃ schedule,
     process_articles_async articles 1 schedule w
     = Some (successes (sequential_outcomes articles w).1,
             (sequential_outcomes articles w).2)) ∧
  (∀ schedule tasks w' outcomes,
     run_schedule 1 schedule (Waiting <$> articles, w) = Some (tasks, w') →
     gathered tasks = Some outcomes →
     sequential_outcomes articles w = (outcomes, w')) ∧
  (∀ schedule results w',
     process_articles_async articles 1 schedule w = Some (results, w') →
     process_articles articles w = (inr results, w') ∧
     results ≡ₚ successes (sequential_outcomes articles w).1).
Proof.
  split; [|split].
  - destruct (run_to_completion 1 (Waiting <$> articles) w)
      as (schedule & tasks' & w' & outcomes & Hrun & Hgathered); [done|].
    exists schedule. unfold process_articles_async.
    rewrite Hrun, Hgathered.
    by rewrite (one_slot_outcomes _ _ _ _ _ _ Hrun Hgathered).
  - intros schedule tasks w' outcomes. apply one_slot_outcomes.
  - intros schedule results w'. unfold process_articles_async.
    destruct (run_schedule _ _ _) as [[tasks w1]|] eqn:Hrun; [|done].
    destruct (gathered tasks) as [outcomes|] eqn:Hgathered; [|done].
    intros [= <- <-].
    rewrite process_articles_outcomes.
    by rewrite (one_slot_outcomes _ _ _ _ _ _ Hrun Hgathered).
Qed.

End AsyncFacts.

(** ** Bounded-concurrency mode on the scripted gateway *)

(** Two slots, the first two threads interleaved; the second article fails
    and the third is admitted once a slot is free. *)
Lemma process_articles_async_ordered_witness :
  1 ≤ 2 ∧
  ∃ results w',
    process_articles_async
      [sample_article 1; sample_article 2; sample_article 3] 2
      [0; 1; 0; 1; 0; 1; 2; 2; 2] second_fails_world = Some (results, w') ∧
    title <$> results = [a_title (sample_article 1); a_title (sample_article 3)] ∧
    summary <$> results = [lit "Summary 1"; lit "Summary 3"] ∧
    sentiment <$> results = [lit "Positive"; lit "Neutral"] ∧
    (∃ outcomes,
       Forall2 outcome_of
         [sample_article 1; sample_article 2; sample_article 3] outcomes ∧
       results = omap (λ o, match o with inr r => Some r | inl _ => None end)
                      outcomes) ∧
    (∃ kept,
       sublist kept [sample_article 1; sample_article 2; sample_article 3] ∧
       Forall2 built_from kept results) ∧
    length [0; 1; 0; 1; 0; 1; 2; 2; 2] ≤ 4 * 3.
Proof.
  split; [repeat constructor|].
  assert (∃ results w',
    process_articles_async
      [sample_article 1; sample_article 2; sample_article 3] 2
      [0; 1; 0; 1; 0; 1; 2; 2; 2] second_fails_world = Some (results, w') ∧
    title <$> results = [a_title (sample_article 1); a_title (sample_article 3)] ∧
    summary <$> results = [lit "Summary 1"; lit "Summary 3"] ∧
    sentiment <$> results = [lit "Positive"; lit "Neutral"])
    as (results & w' & Hrun & Htitles & Hsummaries & Hmoods)
    by (eexists _, _; repeat split; vm_compute; reflexivity).
  exists results, w'. split; [exact Hrun|]. split; [exact Htitles|].
  split; [exact Hsummaries|]. split; [exact Hmoods|].
  destruct (proj1 (process_articles_async_ordered
                     [sample_article 1; sample_article 2; sample_article 3] 2
                     (le_S _ _ (le_n 1)))
              _ _ _ _ Hrun)
    as ((outcomes & _ & Hout & Hres) & Hkept & _ & Hlen).
  split; [exists outcomes; split; [exact Hout|exact Hres]|].
  split; [exact Hkept|exact Hlen].
Defined.

(** One slot: the run returns what the sequential loop returns. *)
Lemma process_articles_async_one_slot_witness :
  ∃ results w',
    process_articles_async
      [sample_article 1; sample_article 2; sample_article 3] 1
      [0; 0; 0; 1; 1; 1; 2; 2; 2] second_fails_world = Some (results, w') ∧
    process_articles [sample_article 1; sample_article 2; sample_article 3]
      second_fails_world = (inr results, w') ∧
    length results = 2.
Proof.
  assert (∃ results w',
    process_articles_async
      [sample_article 1; sample_article 2; sample_article 3] 1
      [0; 0; 0; 1; 1; 1; 2; 2; 2] second_fails_world = Some (results, w') ∧
    length results = 2)
    as (results & w' & Hrun & Hlen)
    by (eexists _, _; split; vm_compute; reflexivity).
  exists results, w'. split; [exact Hrun|]. split; [|exact Hlen].
  exact (proj1 (proj2 (proj2 (process_articles_async_one_slot
                                [sample_article 1; sample_article 2; sample_article 3]
                                second_fails_world))
                  _ _ _ Hrun)).
Defined.

(** With two slots the threads interleave, and an article can receive the
    reply that the sequential loop gives to another one. *)
Example two_slots_interleave :
  ∃ results w',
    process_articles_async [sample_article 1; sample_article 2] 2
      [0; 1; 1; 0; 1; 0]
      (scripted_world [Some (lit "Summary A"); Some (lit "Summary B")]
                      [Some (lit "Positive"); Some (lit "Neutral")])
      = Some (results, w') ∧
    (title <$> results, summary <$> results)
      = ([a_title (sample_article 1); a_title (sample_article 2)],
         [lit "Summary B"; lit "Summary A"]).
Proof. eexists _, _. split; vm_compute; reflexivity. Qed.

(** A semaphore without slots never admits a task. *)
Example no_slot_no_move i :
  step 0 i (Waiting <$> [sample_article 1], failing_world) = None.
Proof. by destruct i as [|[|i]]. Qed.

(** ** More on the pipeline *)

Section PipelineFacts.
Context {W E : Type} {llm_providers : LLMProviders W E}.

(** X2. [summarize_article] raises exactly when both summary requests
    fail, and then with the exception of the second one; a failure of the
    sentiment request alone never makes it raise. *)
Theorem summarize_article_raises_iff article w e w' :
  summarize_article article w = (inl e, w') ↔
  ∃ e1 w1,
    ask_openai (summary_prompt article) w = (inl e1, w1) ∧
    ask_cohere (summary_prompt article) w1 = (inl e, w').
Proof.
  rewrite summarize_article_stages. unfold summarize_step, try_except.
  destruct (ask_openai (summary_prompt article) w) as [[e1|text] w1] eqn:Ha.
  - destruct (ask_cohere (summary_prompt article) w1) as [[e2|text] w2] eqn:Hb.
    + split.
      * intros [= <- <-]. by exists e1, w1.
      * intros (e1' & w1' & [= <- <-] & Hb'). rewrite Hb in Hb'. by injection Hb' as -> ->.
    + split.
      * by destruct (ask_cohere (sentiment_prompt text) w2) as [[?|?] ?].
      * intros (e1' & w1' & [= <- <-] & Hb'). by rewrite Hb in Hb'.
  - split.
    + by destruct (ask_cohere (sentiment_prompt text) w1) as [[?|?] ?].
    + by intros (e1' & w1' & ? & _).
Qed.

Lemma length_lit_app (s : string) (l : list N) :
  length (lit s ++ l) = String.length s + length l.
Proof.
  rewrite length_app. f_equal. unfold lit. rewrite length_fmap.
  induction s as [|c s IH]; cbn; [done|]. by rewrite IH.
Qed.

(** X3. The summary prompt holds the title, the description and at most
    the first 500 code points of the content: its length is 78 plus the
    lengths of title and description plus [min 500 (length content)]; an
    article that differs from another one only beyond the 500th code point
    of its content is processed in exactly the same way. *)
Theorem summary_prompt_truncates article :
  length (summary_prompt article)
    = 78 + length (a_title article) + length (a_description article)
      + (500 `min` length (a_content article)) ∧
  ∀ article' w,
    a_title article' = a_title article →
    a_description article' = a_description article →
    take 500 (a_content article') = take 500 (a_content article) →
    a_url article' = a_url article →
    a_source article' = a_source article →
    a_published_at article' = a_published_at article →
    summary_prompt article' = summary_prompt article ∧
    summarize_article article' w = summarize_article article w.
Proof.
  split.
  - unfold summary_prompt, article_text, nl.
    repeat (rewrite length_lit_app || rewrite length_app).
    rewrite length_take. cbn [String.length length]. lia.
  - intros article' w Ht Hd Hc Hu Hs Hp.
    assert (summary_prompt article' = summary_prompt article) as Hprompt.
    { unfold summary_prompt, article_text. by rewrite Ht, Hd, Hc. }
    split; [done|].
    rewrite !summarize_article_stages. unfold summarize_step. rewrite Hprompt.
    assert (∀ s m, make_result article' s m = make_result article s m) as Hres.
    { intros s m. unfold make_result. by rewrite Ht, Hu, Hs, Hp. }
    destruct (try_except _ _ w) as [[e1|text] w1]; [done|].
    destruct (ask_cohere (sentiment_prompt text) w1) as [[e2|mood] w2];
      by rewrite Hres.
Qed.

(** *** Batches *)

Lemma sequential_outcomes_app articles1 articles2 w :
  sequential_outcomes (articles1 ++ articles2) w =
    ((sequential_outcomes articles1 w).1
       ++ (sequential_outcomes articles2 (sequential_outcomes articles1 w).2).1,
     (sequential_outcomes articles2 (sequential_outcomes articles1 w).2).2).
Proof.
  revert w. induction articles1 as [|a articles1 IH]; intros w.
  - cbn. by destruct (sequential_outcomes articles2 w).
  - cbn [app sequential_outcomes].
    destruct (summarize_article a w) as [o w1]. rewrite IH.
    by destruct (sequential_outcomes articles1 w1).
Qed.

Lemma successes_app (os1 os2 : list (E + SummaryResult)) :
  successes (os1 ++ os2) = successes os1 ++ successes os2.
Proof. unfold successes. apply omap_app. Qed.

(** X4. Processing a batch in two parts gives the results of the first
    part followed by those of the second part, the second part running
    on the gateway as the first part left it. *)
Theorem process_articles_app articles1 articles2 w results1 w1 results2 w2 :
  process_articles articles1 w = (inr results1, w1) →
  process_articles articles2 w1 = (inr results2, w2) →
  process_articles (articles1 ++ articles2) w = (inr (results1 ++ results2), w2).
Proof.
  rewrite !process_articles_outcomes, sequential_outcomes_app.
  cbn [fst snd]. rewrite successes_app.
  intros [= <- <-] [= <- <-]. done.
Qed.

(** X5. The number of results and the number of failed articles add up to
    the number of articles; the batch is returned in full exactly when no
    article failed. *)
Theorem process_articles_length articles w :
  let outcomes := (sequential_outcomes articles w).1 in
  let failures := omap (λ o, match o with inl e => Some e | inr _ => None end)
                       outcomes in
  ∃ results w',
    process_articles articles w = (inr results, w') ∧
    length results + length failures = length articles ∧
    (length results = length articles ↔ failures = []).
Proof.
  cbv zeta. rewrite process_articles_outcomes.
  set (outcomes := (sequential_outcomes articles w).1).
  set (failures := omap _ outcomes).
  eexists _, _. split; [done|].
  assert (length (successes outcomes) + length failures = length outcomes) as Hsum.
  { subst failures. generalize outcomes. clear. intros os. unfold successes.
    induction os as [|[e|r] os IH]; cbn [omap list_omap length]; lia. }
  assert (length outcomes = length articles) as Hlen.
  { symmetry. eapply Forall2_length, sequential_outcomes_built_from. }
  split; [lia|]. split.
  - intros Hall. apply length_zero_iff_nil. lia.
  - intros Hnone. rewrite Hnone in Hsum. cbn in Hsum. lia.
Qed.

End PipelineFacts.

(** ** The calls of a run *)

Section CallFacts.
Context {W E : Type} {llm_providers : LLMProviders W E}.

Lemma traced_summarize_article article w log :
  summarize_article (llm_providers := traced llm_providers) article (w, log)
  = ((summarize_article article w).1,
     ((summarize_article article w).2, log ++ provider_calls article w)).
Proof.
  rewrite !summarize_article_stages.
  unfold summarize_step, try_except, provider_calls.
  cbn [ask_openai ask_cohere traced]. unfold traced_call. cbn [fst snd].
  destruct (ask_openai (summary_prompt article) w) as [[e1|text] w1];
    cbn [fst snd].
  - destruct (ask_cohere (summary_prompt article) w1) as [[e2|text] w2];
      cbn [fst snd].
    + by rewrite <- app_assoc.
    + destruct (ask_cohere (sentiment_prompt text) w2) as [[e3|mood] w3];
        cbn [fst snd]; by rewrite <- !app_assoc.
  - destruct (ask_cohere (sentiment_prompt text) w1) as [[e3|mood] w3];
      cbn [fst snd]; by rewrite <- !app_assoc.
Qed.

(** X1. When OpenAI answers the summary request and Cohere the sentiment
    request, the result has these two answers in its summary and sentiment
    fields and the article's title, source, url and timestamp in the
    others, and the run makes exactly these two calls: Cohere is not asked
    for a summary. *)
Theorem summarize_article_both_succeed article w text w1 mood w2 log :
  ask_openai (summary_prompt article) w = (inr text, w1) →
  ask_cohere (sentiment_prompt text) w1 = (inr mood, w2) →
  ∃ r,
    summarize_article article w = (inr r, w2) ∧
    summary r = text ∧ sentiment r = mood ∧
    title r = a_title article ∧ source r = a_source article ∧
    url r = a_url article ∧ published_at r = a_published_at article ∧
    summarize_article (llm_providers := traced llm_providers) article (w, log)
    = (inr r, (w2, log ++ [("openai"%string, summary_prompt article);
                           ("cohere"%string, sentiment_prompt text)])).
Proof.
  intros Ha Hb. exists (make_result article text mood).
  assert (summarize_article article w = (inr (make_result article text mood), w2))
    as Hr.
  { rewrite summarize_article_stages.
    unfold summarize_step, try_except. by rewrite Ha, Hb. }
  split; [done|]. repeat (split; [reflexivity|]).
  rewrite traced_summarize_article, Hr. unfold provider_calls. by rewrite Ha.
Qed.

Lemma provider_calls_length article w :
  2 ≤ length (provider_calls article w) ≤ 3.
Proof.
  unfold provider_calls.
  destruct (ask_openai _ w) as [[e1|text] w1]; [|cbn; lia].
  destruct (ask_cohere _ w1) as [[e2|text] w2]; cbn; lia.
Qed.

(** X6. One article costs two or three provider calls: the first is
    always the summary request to OpenAI, a third call is made exactly
    when OpenAI failed and Cohere then produced the summary, and recording
    the calls changes neither the outcome nor the state of the gateway. *)
Theorem summarize_article_calls article w log :
  summarize_article (llm_providers := traced llm_providers) article (w, log)
  = ((summarize_article article w).1,
     ((summarize_article article w).2, log ++ provider_calls article w)) ∧
  2 ≤ length (provider_calls article w) ≤ 3 ∧
  head (provider_calls article w) = Some ("openai"%string, summary_prompt article) ∧
  (length (provider_calls article w) = 3 ↔
   ∃ e w1 text w2,
     ask_openai (summary_prompt article) w = (inl e, w1) ∧
     ask_cohere (summary_prompt article) w1 = (inr text, w2)).
Proof.
  split; [apply traced_summarize_article|].
  split; [apply provider_calls_length|].
  unfold provider_calls.
  destruct (ask_openai _ w) as [[e1|text] w1].
  - destruct (ask_cohere _ w1) as [[e2|text] w2] eqn:Hb; (split; [done|]).
    + split; [done|]. intros (? & ? & ? & ? & [= <- <-] & Hb').
      by rewrite Hb in Hb'.
    + split; [|done]. intros _. by exists e1, w1, text, w2.
  - split; [done|]. split; [done|]. by intros (? & ? & ? & ? & ? & _).
Qed.

Lemma traced_process_loop articles results w log :
  process_loop (llm_providers := traced llm_providers) articles results (w, log)
  = ((process_loop articles results w).1,
     ((process_loop articles results w).2, log ++ batch_calls articles w)).
Proof.
  revert results w log.
  induction articles as [|article rest IH]; intros results w log.
  - cbn. by rewrite app_nil_r.
  - cbn [process_loop batch_calls]. unfold bind at 1 3 5. unfold try_except, bind, ret.
    rewrite traced_summarize_article.
    destruct (summarize_article article w) as [[e|result] w1]; cbn [fst snd];
      by rewrite IH, app_assoc.
Qed.

Lemma batch_calls_length articles w :
  2 * length articles ≤ length (batch_calls articles w) ≤ 3 * length articles.
Proof.
  revert w. induction articles as [|article rest IH]; intros w; [cbn; lia|].
  cbn [batch_calls length]. rewrite length_app.
  pose proof (provider_calls_length article w).
  specialize (IH (summarize_article article w).2). lia.
Qed.

(** X7. A batch of [n] articles costs between [2 * n] and [3 * n] provider
    calls, failed articles included, and recording the calls does not
    change what [process_articles] returns. *)
Theorem process_articles_calls articles w log :
  process_articles (llm_providers := traced llm_providers) articles (w, log)
  = ((process_articles articles w).1,
     ((process_articles articles w).2, log ++ batch_calls articles w)) ∧
  2 * length articles ≤ length (batch_calls articles w) ≤ 3 * length articles.
Proof. split; [apply traced_process_loop|apply batch_calls_length]. Qed.

End CallFacts.

(** ** More on the bounded-concurrency mode *)

Section AsyncBounds.
Context {W E : Type} {llm_providers : LLMProviders W E}.
Implicit Types (tasks : list (task E)) (w : W) (article : Article).

Lemma in_flight_cons (t : task E) tasks :
  in_flight (t :: tasks) = (if is_running t then 1 else 0) + in_flight tasks.
Proof.
  destruct t as [a|a pos|o]; cbn [is_running].
  - apply in_flight_waiting.
  - apply in_flight_running.
  - apply in_flight_finished.
Qed.

Lemma in_flight_insert tasks i (t t' : task E) :
  tasks !! i = Some t →
  in_flight (<[i := t']> tasks) + (if is_running t then 1 else 0)
  = in_flight tasks + (if is_running t' then 1 else 0).
Proof.
  revert i. induction tasks as [|t0 tasks IH]; intros i; [done|].
  destruct i as [|i].
  - intros [= ->]. change (<[0 := t']> (t :: tasks)) with (t' :: tasks).
    rewrite !in_flight_cons. lia.
  - rewrite lookup_tail, insert_tail. intros Hi.
    rewrite !in_flight_cons. specialize (IH _ Hi). lia.
Qed.

Lemma step_in_flight n i tasks w tasks' w' :
  in_flight tasks ≤ n →
  step n i (tasks, w) = Some (tasks', w') →
  in_flight tasks' ≤ n.
Proof.
  intros Hcap Hstep.
  apply step_inv in Hstep as (t & t' & Hi & -> & Hmove).
  pose proof (in_flight_insert tasks i t t' Hi) as Hcount.
  destruct Hmove as [(a & -> & -> & _ & Hacq)|(a & pos & -> & Hstep)].
  - unfold can_acquire in Hacq. apply andb_prop in Hacq as [_ Hfree].
    apply bool_decide_eq_true in Hfree. cbn in Hcount. lia.
  - cbn [is_running] in Hcount. destruct (is_running t'); lia.
Qed.

(** X8. The semaphore bounds the concurrency: in every state that a run of
    [process_articles_async] reaches, at most [max_concurrent] articles are
    in flight. *)
Theorem process_articles_async_bounded articles max_concurrent schedule w tasks w' :
  run_schedule max_concurrent schedule (Waiting <$> articles, w)
    = Some (tasks, w') →
  in_flight tasks ≤ max_concurrent ∧ length tasks = length articles.
Proof.
  intros Hrun. split.
  - assert (in_flight (E:=E) (Waiting <$> articles) ≤ max_concurrent) as Hcap
      by (rewrite in_flight_all_waiting; lia).
    revert Hcap Hrun. generalize (Waiting (E:=E) <$> articles). clear articles.
    revert w. induction schedule as [|i schedule IH]; intros w tasks0 Hcap.
    + by intros [= <- <-].
    + cbn [run_schedule].
      destruct (step max_concurrent i (tasks0, w)) as [[tasks1 w1]|] eqn:Hstep;
        [|done].
      apply IH. by eapply step_in_flight.
  - symmetry. eapply Forall2_length, run_schedule_task_of, Hrun.
    apply task_of_initial.
Qed.

(** *** Admission order *)

Lemma drop_S_tail {A} (l : list A) n x rest :
  drop n l = x :: rest → drop (S n) l = rest.
Proof.
  revert l. induction n as [|n IH]; intros [|y l]; cbn; try done.
  - by intros [= _ ->].
  - apply IH.
Qed.

Lemma step_started i n started (rest : list Article) w tasks' w' :
  Forall (λ t, is_waiting t = false) started →
  step n i (started ++ (Waiting <$> rest), w) = Some (tasks', w') →
  (∃ started', length started' = length started ∧
     Forall (λ t, is_waiting t = false) started' ∧
     tasks' = started' ++ (Waiting <$> rest)) ∨
  (∃ article rest', rest = article :: rest' ∧ i = length started ∧
     tasks' = (started ++ [Running article AtPrimary]) ++ (Waiting <$> rest')).
Proof.
  intros Hstarted Hstep.
  apply step_inv in Hstep as (t & t' & Hi & -> & Hmove).
  destruct (decide (i < length started)) as [Hlt|Hge].
  - left. rewrite lookup_app_l in Hi by done.
    exists (<[i := t']> started). rewrite length_insert. split; [done|].
    split; [|by rewrite insert_app_l].
    apply Forall_insert; [done|].
    destruct Hmove as [(a & -> & _)|(a & pos & -> & Hstep)].
    + by pose proof (proj1 (Forall_lookup _ _) Hstarted _ _ Hi).
    + by destruct (thread_step_shape _ _ _ _ _ Hstep) as [[pos' ->]|[o ->]].
  - right. rewrite lookup_app_r, list_lookup_fmap in Hi by lia.
    destruct (rest !! (i - length started)) as [a|] eqn:Hrest; [|done].
    injection Hi as <-.
    destruct Hmove as [(a' & [= <-] & -> & _ & Hacq)|(? & ? & ? & _)]; [|done].
    assert (i = length started) as ->.
    { destruct (decide (i = length started)) as [|Hne]; [done|exfalso].
      unfold can_acquire in Hacq. apply andb_prop in Hacq as [Hbefore _].
      apply Is_true_eq_left, forallb_True in Hbefore.
      destruct rest as [|a0 rest]; [done|].
      assert (take i (started ++ (Waiting (E:=E) <$> a0 :: rest))
                !! length started = Some (Waiting a0)) as Hfirst.
      { rewrite lookup_take_lt by lia. rewrite lookup_app_r by lia.
        by rewrite Nat.sub_diag. }
      by apply (proj1 (Forall_lookup _ _) Hbefore _ _) in Hfirst. }
    rewrite Nat.sub_diag in Hrest. destruct rest as [|a0 rest']; [done|].
    injection Hrest as ->. exists a, rest'. split; [done|]. split; [done|].
    rewrite <- (Nat.add_0_r (length started)), insert_app_r.
    by rewrite <- app_assoc.
Qed.

(** X9. Articles are started in input order: in every reachable state the
    tasks that have been admitted by the semaphore form a prefix of the
    task list, and the tasks after it are still waiting, each for its own
    article. *)
Theorem process_articles_async_fifo articles max_concurrent schedule w tasks w' :
  run_schedule max_concurrent schedule (Waiting <$> articles, w)
    = Some (tasks, w') →
  ∃ started,
    Forall (λ t, is_waiting t = false) started ∧
    tasks = started ++ (Waiting <$> drop (length started) articles).
Proof.
  assert (∀ started rest tasks w,
    Forall (λ t, is_waiting t = false) started →
    drop (length started) articles = rest →
    run_schedule max_concurrent schedule (started ++ (Waiting <$> rest), w)
      = Some (tasks, w') →
    ∃ started',
      Forall (λ t, is_waiting t = false) started' ∧
      tasks = started' ++ (Waiting <$> drop (length started') articles)) as Hinv.
  { clear tasks w. induction schedule as [|i schedule IH];
      intros started rest tasks w Hstarted Hrest.
    - intros [= <- <-]. exists started. by rewrite Hrest.
    - cbn [run_schedule].
      destruct (step _ i _) as [[tasks1 w1]|] eqn:Hstep; [|done].
      apply step_started in Hstep
        as [(started' & Hlen & Hstarted' & ->)|(a & rest' & -> & -> & ->)];
        [| |done].
      + apply IH; [done|]. by rewrite Hlen.
      + apply IH.
        * apply Forall_app. split; [done|]. by repeat constructor.
        * rewrite length_app, Nat.add_1_r. cbn.
          by rewrite (drop_S_tail _ _ _ _ Hrest). }
  intros Hrun. by apply (Hinv [] articles tasks w).
Qed.

(** X10. A semaphore without slots admits nobody: with
    [max_concurrent = 0] the function returns only for the empty batch. *)
Theorem process_articles_async_no_slot articles schedule w out :
  process_articles_async articles 0 schedule w = Some out ↔
  articles = [] ∧ schedule = [] ∧ out = ([], w).
Proof.
  unfold process_articles_async. split.
  - destruct schedule as [|i schedule].
    + cbn [run_schedule]. destruct articles as [|a articles]; [|done].
      cbn. by intros [= <-].
    + cbn [run_schedule].
      assert (step 0 i (Waiting (E:=E) <$> articles, w) = None) as ->; [|done].
      unfold step. rewrite list_lookup_fmap.
      destruct (articles !! i) as [a|]; [|done]. cbn.
      unfold can_acquire. rewrite bool_decide_eq_false_2 by lia.
      by rewrite andb_false_r.
  - by intros (-> & -> & ->).
Qed.

End AsyncBounds.

(** ** Gateways whose replies depend on the prompt only *)

Section PromptOnlyFacts.
Context {W E : Type} {llm_providers : LLMProviders W E}.
Variable openai_reply cohere_reply : str → E + str.
Hypothesis openai_by_prompt : ∀ prompt w, (ask_openai prompt w).1 = openai_reply prompt.
Hypothesis cohere_by_prompt : ∀ prompt w, (ask_cohere prompt w).1 = cohere_reply prompt.

(** Case analysis on a provider call, its reply replaced by the one the
    prompt fixes. *)
Ltac by_prompt call :=
  match call with
  | ask_openai ?p ?w =>
      let H := fresh in
      pose proof (openai_by_prompt p w) as H;
      destruct (ask_openai p w) as [? ?]; cbn [fst] in H; subst
  | ask_cohere ?p ?w =>
      let H := fresh in
      pose proof (cohere_by_prompt p w) as H;
      destruct (ask_cohere p w) as [? ?]; cbn [fst] in H; subst
  end.

Lemma summarize_article_by_prompt article w :
  (summarize_article article w).1 = reply_outcome openai_reply cohere_reply article.
Proof using All.
  rewrite summarize_article_stages. unfold summarize_step, try_except, reply_outcome.
  by_prompt (ask_openai (summary_prompt article) w).
  destruct (openai_reply (summary_prompt article)) as [e1|text].
  - match goal with |- context [ask_cohere ?p ?w] => by_prompt (ask_cohere p w) end.
    destruct (cohere_reply (summary_prompt article)) as [e2|text]; [done|].
    match goal with |- context [ask_cohere ?p ?w] => by_prompt (ask_cohere p w) end.
    by destruct (cohere_reply (sentiment_prompt text)).
  - match goal with |- context [ask_cohere ?p ?w] => by_prompt (ask_cohere p w) end.
    by destruct (cohere_reply (sentiment_prompt text)).
Qed.

Lemma sequential_outcomes_by_prompt articles w :
  (sequential_outcomes articles w).1
  = reply_outcome openai_reply cohere_reply <$> articles.
Proof using All.
  revert w. induction articles as [|a articles IH]; intros w; [done|].
  cbn [sequential_outcomes fmap list_fmap].
  pose proof (summarize_article_by_prompt a w) as Ha.
  destruct (summarize_article a w) as [o w1]. specialize (IH w1).
  destruct (sequential_outcomes articles w1) as [os w2].
  cbn [fst] in *. by rewrite Ha, IH.
Qed.

Lemma thread_step_settled a article pos w t' w' :
  thread_step article pos w = (t', w') →
  settled openai_reply cohere_reply a (Running article pos) →
  settled openai_reply cohere_reply a t'.
Proof using All.
  destruct pos as [| |text]; cbn [thread_step settled].
  - intros Hstep ->. revert Hstep.
    by_prompt (ask_openai (summary_prompt a) w).
    destruct (openai_reply (summary_prompt a)) as [e|text] eqn:Hreply;
      intros [= <- _]; cbn [settled]; (split; [done|]); [by eexists|].
    unfold reply_outcome. by rewrite Hreply.
  - intros Hstep [-> [e0 Hfailed]]. revert Hstep.
    by_prompt (ask_cohere (summary_prompt a) w).
    destruct (cohere_reply (summary_prompt a)) as [e|text] eqn:Hreply;
      intros [= <- _]; cbn [settled].
    + unfold reply_outcome. by rewrite Hfailed, Hreply.
    + split; [done|]. unfold reply_outcome. by rewrite Hfailed, Hreply.
  - intros Hstep [-> Hout]. revert Hstep.
    by_prompt (ask_cohere (sentiment_prompt text) w).
    destruct (cohere_reply (sentiment_prompt text)) as [e|mood];
      intros [= <- _]; cbn [settled]; by rewrite Hout.
Qed.

Lemma run_schedule_settled n schedule articles tasks w tasks' w' :
  Forall2 (settled openai_reply cohere_reply) articles tasks →
  run_schedule n schedule (tasks, w) = Some (tasks', w') →
  Forall2 (settled openai_reply cohere_reply) articles tasks'.
Proof using All.
  revert tasks w. induction schedule as [|i schedule IH]; intros tasks w Hall.
  - by intros [= <- <-].
  - cbn [run_schedule].
    destruct (step n i (tasks, w)) as [[tasks1 w1]|] eqn:Hstep; [|done].
    apply IH. clear IH.
    apply step_inv in Hstep as (t & t' & Hi & -> & Hmove).
    destruct (Forall2_lookup_r _ _ _ _ _ Hall Hi) as (a & Ha & Hat).
    rewrite <- (list_insert_id articles i a Ha).
    apply Forall2_insert; [done|].
    destruct Hmove as [(a' & -> & -> & _)|(a' & pos & -> & Hstep)]; [done|].
    by eapply thread_step_settled.
Qed.

(** X11. When the reply of each provider depends on the prompt only, the
    bounded-concurrency mode agrees with the sequential mode: with at
    least one slot a run that returns exists, and every run that returns,
    for whatever [max_concurrent] and scheduling, returns the list that
    [process_articles] returns. *)
Theorem process_articles_async_by_prompt articles max_concurrent w :
  (1 ≤ max_concurrent →
   ∃ schedule results w',
     process_articles_async articles max_concurrent schedule w
       = Some (results, w')) ∧
  (∀ schedule results w',
     process_articles_async articles max_concurrent schedule w
       = Some (results, w') →
     (process_articles articles w).1 = inr results ∧
     results = successes (reply_outcome openai_reply cohere_reply <$> articles)).
Proof using All.
  split.
  - intros Hn.
    destruct (run_to_completion max_concurrent (Waiting <$> articles) w Hn)
      as (schedule & tasks' & w' & outcomes & Hrun & Hgathered).
    exists schedule, (successes outcomes), w'.
    unfold process_articles_async. by rewrite Hrun, Hgathered.
  - intros schedule results w'. unfold process_articles_async.
    destruct (run_schedule _ _ _) as [[tasks w1]|] eqn:Hrun; [|done].
    destruct (gathered tasks) as [outcomes|] eqn:Hgathered; [|done].
    intros [= <- <-].
    assert (outcomes = reply_outcome openai_reply cohere_reply <$> articles) as ->.
    { assert (Forall2 (settled openai_reply cohere_reply) articles
                (Waiting <$> articles)) as Hinit.
      { clear. induction articles; by constructor. }
      pose proof (run_schedule_settled _ _ _ _ _ _ _ Hinit Hrun) as Hall.
      rewrite (gathered_finished _ _ Hgathered) in Hall. clear -Hall.
      revert outcomes Hall. induction articles as [|a articles IH];
        intros outcomes Hall.
      - apply Forall2_nil_inv_l in Hall. by destruct outcomes.
      - destruct outcomes as [|o outcomes]; [by apply Forall2_nil_inv_r in Hall|].
        apply Forall2_cons_1 in Hall as [Ho Hall]. cbn in Ho.
        cbn [fmap list_fmap]. f_equal; [done|]. by apply IH. }
    split; [|done].
    by rewrite process_articles_outcomes, sequential_outcomes_by_prompt.
Qed.

End PromptOnlyFacts.

(** ** Configuration check *)

Lemma labels_distinct :
  openai_label ≠ cohere_label ∧ openai_label ≠ news_label ∧
  cohere_label ≠ news_label.
Proof.
  repeat split; intros Heq; apply (f_equal head) in Heq;
    vm_compute in Heq; discriminate.
Qed.

(** The missing labels, by the truth values of the three keys. *)
Lemma missing_cases cls :
  missing cls =
    (if truthy (OPENAI_API_KEY cls) then [] else [openai_label]) ++
    (if truthy (COHERE_API_KEY cls) then [] else [cohere_label]) ++
    (if truthy (NEWS_API_KEY cls) then [] else [news_label]).
Proof.
  unfold missing, required.
  destruct (truthy (OPENAI_API_KEY cls)) eqn:H1,
           (truthy (COHERE_API_KEY cls)) eqn:H2,
           (truthy (NEWS_API_KEY cls)) eqn:H3;
    repeat first [ rewrite filter_cons_True by (cbn [snd]; congruence)
                 | rewrite filter_cons_False by (cbn [snd]; congruence) ];
    reflexivity.
Qed.

(** X12. The configuration check passes exactly when each of the three
    API keys holds a non-empty string; a key that is unset ([None]) and a
    key that is the empty string both make it fail. *)
Theorem validate_passes_iff cls :
  validate cls = inr () ↔
  (∃ c v, OPENAI_API_KEY cls = Some (c :: v)) ∧
  (∃ c v, COHERE_API_KEY cls = Some (c :: v)) ∧
  (∃ c v, NEWS_API_KEY cls = Some (c :: v)).
Proof.
  unfold validate. rewrite missing_cases.
  destruct (OPENAI_API_KEY cls) as [[|c1 v1]|],
           (COHERE_API_KEY cls) as [[|c2 v2]|],
           (NEWS_API_KEY cls) as [[|c3 v3]|];
    cbn [truthy app];
    (split; [try discriminate; intros _; repeat split; by eexists _, _
            | intros ((? & ? & ?) & (? & ? & ?) & (? & ? & ?)); done]).
Qed.

(** X13. When the check fails, the message of the error is the fixed
    prefix followed by the labels of the missing keys, separated by
    ", ": a label is listed exactly when its key has no non-empty value,
    and the labels come in the order OpenAI, Cohere, NewsAPI. *)
Theorem validate_message cls :
  (∀ message,
     validate cls = inl message ↔
     missing cls ≠ [] ∧
     message = lit "Missing required configuration: "
               ++ join (lit ", ") (missing cls)) ∧
  sublist (missing cls) [openai_label; cohere_label; news_label] ∧
  (openai_label ∈ missing cls ↔ truthy (OPENAI_API_KEY cls) = false) ∧
  (cohere_label ∈ missing cls ↔ truthy (COHERE_API_KEY cls) = false) ∧
  (news_label ∈ missing cls ↔ truthy (NEWS_API_KEY cls) = false).
Proof.
  split.
  - intros message. unfold validate.
    destruct (missing cls) as [|name names]; [split; [done|by intros [? _]]|].
    split; [by intros [= <-]|by intros [_ ->]].
  - destruct labels_distinct as (Hoc & Hon & Hcn).
    rewrite missing_cases.
    destruct (truthy (OPENAI_API_KEY cls)), (truthy (COHERE_API_KEY cls)),
             (truthy (NEWS_API_KEY cls)); cbn [app];
      (split; [repeat first [apply sublist_nil | apply sublist_skip
                             | apply sublist_cons]|]);
      rewrite ?elem_of_cons, ?elem_of_nil; intuition congruence.
Qed.

(** ** The report *)

Section ReportFacts.
Context {W C : Type}.
Variable get_summary : W → CostSummary C.
Variable format_fixed : nat → C → str.

Lemma report_entries_length i results :
  length (report_entries i results) = 6 * length results.
Proof.
  revert i. induction results as [|r results IH]; intros i; [done|].
  cbn [report_entries]. rewrite length_app, IH. cbn. lia.
Qed.

Lemma report_entries_block i results k r :
  results !! k = Some r →
  take 6 (drop (6 * k) (report_entries i results))
  = report_entry (i + N.of_nat k) r.
Proof.
  revert i k. induction results as [|r0 results IH]; intros i k; [done|].
  cbn [report_entries]. destruct k as [|k].
  - intros [= ->]. rewrite N.add_0_r. by rewrite Nat.mul_0_r.
  - rewrite lookup_tail. intros Hk.
    replace (6 * S k) with (6 + 6 * k) by lia.
    rewrite drop_app_add' by done. rewrite (IH _ _ Hk).
    f_equal. lia.
Qed.

(** X14. The report has three header lines, six lines per result and ten
    lines of cost summary.  The results appear in the order of the list,
    the k-th one (from 0) in lines [3 + 6 * k] to [8 + 6 * k] under the
    number [k + 1]; the cost summary is printed also when there is no
    result. *)
Theorem generate_report_layout results w :
  length (generate_report get_summary format_fixed results w)
    = 13 + 6 * length results ∧
  (∀ k r,
     results !! k = Some r →
     take 6 (drop (3 + 6 * k) (generate_report get_summary format_fixed results w))
     = report_entry (N.of_nat (S k)) r) ∧
  drop (3 + 6 * length results) (generate_report get_summary format_fixed results w)
  = drop 3 (generate_report get_summary format_fixed [] w).
Proof.
  unfold generate_report. split; [|split].
  - rewrite !length_app, report_entries_length. cbn. lia.
  - intros k r Hk. rewrite drop_app_add' by done.
    rewrite drop_app_le
      by (rewrite report_entries_length; apply lookup_lt_Some in Hk; lia).
    rewrite take_app_le.
    2:{ rewrite length_drop, report_entries_length.
        apply lookup_lt_Some in Hk. lia. }
    rewrite (report_entries_block _ _ _ _ Hk). f_equal. lia.
  - rewrite drop_app_add' by done.
    by rewrite drop_app_length' by (by rewrite report_entries_length).
Qed.

End ReportFacts.

(** ** The further properties on concrete inputs *)

Lemma summarize_article_both_succeed_witness :
  ∃ r w2,
    summarize_article (sample_article 1) second_fails_world = (inr r, w2) ∧
    summary r = lit "Summary 1" ∧ sentiment r = lit "Positive" ∧
    title r = lit "Test Article 1" ∧
    summarize_article (llm_providers := traced scripted_providers)
      (sample_article 1) (second_fails_world, [])
    = (inr r, (w2, [("openai"%string, summary_prompt (sample_article 1));
                    ("cohere"%string, sentiment_prompt (lit "Summary 1"))])).
Proof.
  pose (w1 := (ask_openai (summary_prompt (sample_article 1)) second_fails_world).2).
  pose (w2 := (ask_cohere (sentiment_prompt (lit "Summary 1")) w1).2).
  assert (ask_openai (summary_prompt (sample_article 1)) second_fails_world
          = (inr (lit "Summary 1"), w1)) as Ha by reflexivity.
  assert (ask_cohere (sentiment_prompt (lit "Summary 1")) w1
          = (inr (lit "Positive"), w2)) as Hb by reflexivity.
  destruct (summarize_article_both_succeed _ _ _ _ _ _ [] Ha Hb)
    as (r & Hr & Hsum & Hsent & Htitle & _ & _ & _ & Hcalls).
  exists r, w2.
  split; [exact Hr|]. split; [exact Hsum|]. split; [exact Hsent|].
  split; [rewrite Htitle; reflexivity|exact Hcalls].
Defined.

Lemma summary_prompt_truncates_witness :
  length (summary_prompt (long_article (lit "A"))) = 78 + 9 + 16 + 500 ∧
  summarize_article (long_article (lit "B")) fallback_world
    = summarize_article (long_article (lit "A")) fallback_world.
Proof.
  destruct (summary_prompt_truncates (W:=scripted) (long_article (lit "A")))
    as [Hlen Hsame].
  split.
  - rewrite Hlen. vm_compute. reflexivity.
  - apply (Hsame (long_article (lit "B")) fallback_world); vm_compute; reflexivity.
Defined.

Lemma process_articles_app_witness :
  ∃ results1 w1 results2 w2,
    process_articles [sample_article 1] second_fails_world = (inr results1, w1) ∧
    process_articles [sample_article 2; sample_article 3] w1 = (inr results2, w2) ∧
    process_articles [sample_article 1; sample_article 2; sample_article 3]
      second_fails_world = (inr (results1 ++ results2), w2) ∧
    length results1 = 1 ∧ length results2 = 1.
Proof.
  pose (o1 := process_articles [sample_article 1] second_fails_world).
  pose (o2 := process_articles [sample_article 2; sample_article 3] o1.2).
  assert (∃ results1, o1 = (inr results1, o1.2) ∧ length results1 = 1)
    as (results1 & H1 & Hlen1) by (eexists; split; vm_compute; reflexivity).
  assert (∃ results2, o2 = (inr results2, o2.2) ∧ length results2 = 1)
    as (results2 & H2 & Hlen2) by (eexists; split; vm_compute; reflexivity).
  exists results1, o1.2, results2, o2.2.
  split; [exact H1|]. split; [exact H2|].
  split; [|split; [exact Hlen1|exact Hlen2]].
  exact (process_articles_app [sample_article 1]
           [sample_article 2; sample_article 3] _ _ _ _ _ H1 H2).
Defined.

Lemma process_articles_async_bounded_witness :
  ∃ tasks w',
    run_schedule 2 [0; 1; 0; 1]
      (Waiting <$> [sample_article 1; sample_article 2; sample_article 3],
       second_fails_world) = Some (tasks, w') ∧
    in_flight tasks = 2 ∧ in_flight tasks ≤ 2 ∧ length tasks = 3.
Proof.
  assert (∃ tasks w',
    run_schedule 2 [0; 1; 0; 1]
      (Waiting <$> [sample_article 1; sample_article 2; sample_article 3],
       second_fails_world) = Some (tasks, w') ∧ in_flight tasks = 2)
    as (tasks & w' & Hrun & Hflight)
    by (eexists _, _; split; vm_compute; reflexivity).
  exists tasks, w'. split; [exact Hrun|]. split; [exact Hflight|].
  exact (process_articles_async_bounded _ _ _ _ _ _ Hrun).
Defined.

Lemma process_articles_async_fifo_witness :
  ∃ tasks w' started,
    run_schedule 2 [0; 1; 0; 1]
      (Waiting <$> [sample_article 1; sample_article 2; sample_article 3],
       second_fails_world) = Some (tasks, w') ∧
    Forall (λ t, is_waiting t = false) started ∧
    tasks = started ++ (Waiting <$> drop (length started)
                          [sample_article 1; sample_article 2; sample_article 3]).
Proof.
  assert (∃ tasks w',
    run_schedule 2 [0; 1; 0; 1]
      (Waiting <$> [sample_article 1; sample_article 2; sample_article 3],
       second_fails_world) = Some (tasks, w'))
    as (tasks & w' & Hrun) by (eexists _, _; vm_compute; reflexivity).
  destruct (process_articles_async_fifo _ _ _ _ _ _ Hrun) as (started & Hs & Ht).
  exists tasks, w', started. split; [exact Hrun|]. split; [exact Hs|exact Ht].
Defined.

Lemma process_articles_async_by_prompt_witness :
  1 ≤ 2 ∧
  (∃ schedule results w',
     process_articles_async (llm_providers := echo_providers)
       [sample_article 1; sample_article 2] 2 schedule 0 = Some (results, w')) ∧
  ∃ results w',
    process_articles_async (llm_providers := echo_providers)
      [sample_article 1; sample_article 2] 2 [0; 1; 1; 0; 1; 0] 0
      = Some (results, w') ∧
    (process_articles (llm_providers := echo_providers)
       [sample_article 1; sample_article 2] 0).1 = inr results ∧
    summary <$> results = [lit ": Test content"; lit ": Test content"].
Proof.
  split; [repeat constructor|].
  pose proof (process_articles_async_by_prompt (llm_providers := echo_providers)
                echo_openai_reply echo_cohere_reply
                (λ _ _, eq_refl) (λ _ _, eq_refl)
                [sample_article 1; sample_article 2] 2 0) as [Hexists Hsame].
  split; [exact (Hexists (le_S _ _ (le_n 1)))|].
  assert (∃ results w',
    process_articles_async (llm_providers := echo_providers)
      [sample_article 1; sample_article 2] 2 [0; 1; 1; 0; 1; 0] 0
      = Some (results, w') ∧
    summary <$> results = [lit ": Test content"; lit ": Test content"])
    as (results & w' & Hrun & Hsum)
    by (eexists _, _; split; vm_compute; reflexivity).
  exists results, w'. split; [exact Hrun|]. split; [|exact Hsum].
  exact (proj1 (Hsame _ _ _ Hrun)).
Defined.

Lemma generate_report_layout_witness :
  take 1 (drop 9
    (generate_report (λ _ : unit, sample_summary) (λ _ n, str_of_N n)
       [make_result (sample_article 1) (lit "Summary 1") (lit "Positive");
        make_result (sample_article 2) (lit "Summary 2") (lit "Neutral")] ()))
    = [nl ++ lit "2. Test Article 2"] ∧
  last (generate_report (λ _ : unit, sample_summary) (λ _ n, str_of_N n) [] ())
    = Some (rule 61 80).
Proof.
  split; [|reflexivity].
  pose proof (proj1 (proj2 (generate_report_layout
                              (λ _ : unit, sample_summary) (λ _ n, str_of_N n)
                              [make_result (sample_article 1) (lit "Summary 1")
                                 (lit "Positive");
                               make_result (sample_article 2) (lit "Summary 2")
                                 (lit "Neutral")] ()))
                1 _ eq_refl) as Hblock.
  apply (f_equal (take 1)) in Hblock.
  rewrite take_take in Hblock. exact Hblock.
Defined.
